(** * The sort-with-pagination engine of the worker (worker/sort.go)

    A shallow embedding of [worker/sort.go]: the row sorter
    ([fetchValue], [sortByValue]), the bucket intersector
    ([intersectBucket]), the two scanners ([sortWithIndex],
    [sortWithoutIndex]), the racer and multi-attribute extender
    ([processSort]) and the RPC handler ([Sort]).

    Go values are modelled as follows.
    - [int], [int32]: [Z]; the only arithmetic of the file is on lengths,
      offsets and counts, far from the wrap-around.
    - [uint64] identifiers: [N].
    - slices: [list]; indexing and re-slicing outside the bounds panic and
      are written out with [Go.index] and [Go.slice].
    - a function returning [(v, error)]: a pair whose second component is an
      [option error]; a nil pointer is [None].
    - a run-time panic or a failed [x.AssertTrue]: the [Crash] outcome.
    - the packages the file imports but that are not part of it ([schema],
      [posting], [types], [x], [group], [algo]) are collaborators gathered
      in records and taken as section variables. *)

From Stdlib Require Import ZArith NArith List Bool Ascii String Lia Permutation Sorted.
Import ListNotations.
Open Scope Z_scope.

(** ** The Go run time: outcomes, slices *)

Module Go.

(** How a call can end otherwise than by returning. *)
Inductive crash : Type :=
| IndexOutOfRange   (* s[i] with i outside [0, len s) *)
| SliceBounds       (* s[lo:hi] with lo > hi or hi > len s *)
| NilDereference    (* field access through a nil pointer *)
| AssertionFailed.  (* x.AssertTrue / x.AssertTruef on false *)

Inductive run (A : Type) : Type :=
| Done (a : A)
| Crash (c : crash).
Arguments Done {A} a.
Arguments Crash {A} c.

Definition len {A : Type} (s : list A) : Z := Z.of_nat (List.length s).

(** [s[i]] *)
Definition index {A : Type} (s : list A) (i : Z) : run A :=
  if i <? 0 then Crash IndexOutOfRange
  else match nth_error s (Z.to_nat i) with
       | Some a => Done a
       | None => Crash IndexOutOfRange
       end.

(** [s[lo:hi]]; every slice of the file has its capacity equal to its
    length where it is re-sliced. *)
Definition slice {A : Type} (s : list A) (lo hi : Z) : run (list A) :=
  if (0 <=? lo) && (lo <=? hi) && (hi <=? len s)
  then Done (firstn (Z.to_nat (hi - lo)) (skipn (Z.to_nat lo) s))
  else Crash SliceBounds.

(** [s[i] = v] on a slice known to be long enough; out of range is a
    panic. *)
Fixpoint set_nth {A : Type} (s : list A) (i : nat) (v : A) : option (list A) :=
  match s, i with
  | [], _ => None
  | _ :: t, O => Some (v :: t)
  | a :: t, S j => option_map (cons a) (set_nth t j v)
  end.

Definition assign {A : Type} (s : list A) (i : Z) (v : A) : run (list A) :=
  if i <? 0 then Crash IndexOutOfRange
  else match set_nth s (Z.to_nat i) v with
       | Some s' => Done s'
       | None => Crash IndexOutOfRange
       end.

(** [x.AssertTrue(b)] and [x.AssertTruef(b, ...)].  Package [x] is not
    among the sources: as the names say, a false condition ends the run,
    and the call, a statement, hands nothing back to its caller. *)
Definition assertTrue (b : bool) : run unit :=
  if b then Done tt else Crash AssertionFailed.

Definition rbind {A B : Type} (m : run A) (f : A -> run B) : run B :=
  match m with
  | Done a => f a
  | Crash c => Crash c
  end.

End Go.
Export Go.

Declare Scope run_scope.
Delimit Scope run_scope with run.
Notation "x <-- m ;;; k" := (rbind m (fun x => k))
  (at level 100, m at next level, right associativity) : run_scope.
Notation "' p <-- m ;;; k" := (rbind m (fun x => match x with p => k end))
  (at level 100, p pattern, m at next level, right associativity) : run_scope.
Notation "m ;;; k" := (rbind m (fun _ => k))
  (at level 100, right associativity) : run_scope.

(** ** Cancellable contexts and the polling monad

    The code polls its context with
    [select { case <-ctx.Done(): ...; default: ... }].  A context is the
    sequence of the answers to these polls inside one invocation: [ctx k]
    says whether the [k]-th poll finds the [Done] channel closed.  A
    computation threads the number of polls made so far. *)

Definition Context := nat -> bool.

Definition M (A : Type) : Type := nat -> run (A * nat).

Definition ret {A : Type} (a : A) : M A := fun k => Done (a, k).

Definition bind {A B : Type} (m : M A) (f : A -> M B) : M B :=
  fun k => match m k with
           | Done (a, k') => f a k'
           | Crash c => Crash c
           end.

Definition lift {A : Type} (r : run A) : M A :=
  fun k => match r with
           | Done a => Done (a, k)
           | Crash c => Crash c
           end.

(** One [select] on [ctx.Done()] with a [default] branch. *)
Definition poll (ctx : Context) : M bool := fun k => Done (ctx k, S k).

(** Some poll from the [k]-th up to, and not including, the [k']-th found
    the context cancelled. *)
Definition cancelSeen (ctx : Context) (k k' : nat) : Prop :=
  exists j, (k <= j < k')%nat /\ ctx j = true.

(** A computation that does not poll. *)
Definition nopoll {A : Type} (m : M A) : Prop :=
  forall k a k', m k = Done (a, k') -> k' = k.

Declare Scope poll_scope.
Delimit Scope poll_scope with poll.
Notation "x <- m ;; k" := (bind m (fun x => k))
  (at level 100, m at next level, right associativity) : poll_scope.
Notation "' p <- m ;; k" := (bind m (fun x => match x with p => k end))
  (at level 100, p pattern, m at next level, right associativity) : poll_scope.

(** ** Errors

    One constructor per error value the file creates; [ErrOther] stands for
    the errors that come back from the collaborators. *)

Inductive error : Type :=
| ErrNegativeCount   (* "We do not yet support negative or infinite count with sorting" *)
| ErrListType        (* "Sorting not supported on attr: %s of type: [scalar]" *)
| ErrObjectType      (* "Cannot sort attribute %s of type object." *)
| ErrNotDefined      (* "Attribute %s not defined in schema" *)
| ErrNotIndexed      (* "Attribute %s is not indexed." *)
| ErrNoExactIndex    (* "Attribute:%s does not have exact index for sorting." *)
| ErrNotSortable     (* "Attribute:%s is not sortable." *)
| ErrContext         (* ctx.Err() *)
| errContinue        (* "Continue processing buckets" *)
| errDone            (* "Done processing buckets" *)
| ErrOther (msg : string).

(** [e != nil] *)
Definition isErr (e : option error) : bool :=
  match e with
  | Some _ => true
  | None => false
  end.

(** Modelled from the spec: the error kinds of its section 7, which the
    code does not have (its errors are messages).  [InvalidRequest] covers a
    negative count, a sort on a list or object type and an undefined
    attribute. *)
Inductive ErrorKind : Type :=
| InvalidRequest | NotIndexed | NotSortable | WrongShard
| ConversionFailed | Cancelled | RemoteFailed.

Definition kindOf (e : error) : option ErrorKind :=
  match e with
  | ErrNegativeCount | ErrListType | ErrObjectType | ErrNotDefined => Some InvalidRequest
  | ErrNotIndexed => Some NotIndexed
  | ErrNoExactIndex | ErrNotSortable => Some NotSortable
  | ErrContext => Some Cancelled
  | errContinue | errDone | ErrOther _ => None
  end.

(** ** Data model *)

Definition uid := N.

(** Modelled from the spec: the type tags of package [types], which is not
    among the sources.  The closed scalar set of the spec's section 3, plus
    [UidID], the object type, the only one that is not scalar. *)
Inductive TypeID : Type :=
| DefaultID | IntID | FloatID | BoolID | StringID
| DateTimeID | GeoID | PasswordID | UidID.

Definition TypeID_eqb (a b : TypeID) : bool :=
  match a, b with
  | DefaultID, DefaultID | IntID, IntID | FloatID, FloatID | BoolID, BoolID
  | StringID, StringID | DateTimeID, DateTimeID | GeoID, GeoID
  | PasswordID, PasswordID | UidID, UidID => true
  | _, _ => false
  end.

Definition IsScalar (t : TypeID) : bool := negb (TypeID_eqb t UidID).

(** [tok.Tokenizer], through the methods the file calls. *)
Record Tokenizer : Type := {
  Identifier : Z;          (* a byte *)
  Name : string;
  IsSortable : bool
}.

(** [protos.SortMessage] *)
Record SortMessage : Type := {
  Attr : list string;
  Desc : list bool;
  UidMatrix : list (list uid);     (* []*protos.List *)
  Offset : Z;
  Count : Z;
  Langs : list string
}.

(** [protos.SortResult]; [emptySortResult] is its zero value. *)
Record SortResult : Type := { r_UidMatrix : list (list uid) }.

Definition emptySortResult : SortResult := {| r_UidMatrix := [] |}.

(** A byte string: a key of the store, or the bytes of a value. *)
Definition bytes := string.

(** [types.Val]; [Payload] is the type of its [Value] (an [interface{}] in
    the code) and [Value = None] is the nil value. *)
Record Val (Payload : Type) : Type := {
  Tid : TypeID;
  Value : option Payload
}.

Arguments Tid {Payload} _.
Arguments Value {Payload} _.

(** [types.Val{}] *)
Definition zeroVal {Payload : Type} : Val Payload :=
  {| Tid := DefaultID; Value := None |}.

(** [schema.State()], the catalog, read only. *)
Record Schema : Type := {
  TypeOf : string -> TypeID + error;
  IsList : string -> bool;
  IsIndexed : string -> bool;
  Tokenizers : string -> list Tokenizer      (* State().Tokenizer(attr) *)
}.

(** A parsed key, [x.Parse(key)]. *)
Record ParsedKey : Type := {
  IsIndex : bool;
  Term : string
}.

(** Package [x]: key encoding. *)
Record Keys : Type := {
  IndexKey : string -> string -> bytes;
  DataKey : string -> uid -> bytes;
  Parse : bytes -> option ParsedKey;
  Nilbyte : bytes
}.

(** The key-value store and the posting lists over it. *)
Record Store (Payload : Type) : Type := {
  (* the keys an iterator visits after [it.Seek(seekKey)], in the order of
     [it.Next()], for [iterOpt.Reverse = reverse] *)
  Iterate : bool -> bytes -> list bytes;
  (* posting.Get(key).Uids(ListOptions{Intersect: ul}) *)
  Uids : bytes -> list uid -> list uid;
  (* posting.Get(key).ValueFor(langs) *)
  ValueFor : bytes -> list string -> Val Payload + error
}.

(** Package [types]: conversion and the order on values. *)
Record Types (Payload : Type) : Type := {
  Convert : Val Payload -> TypeID -> Val Payload + error;
  ValueForType : TypeID -> Val Payload;
  FromBytes : bytes -> Payload;
  (* strict order of two values that are not nil *)
  Less : Val Payload -> Val Payload -> bool;
  (* the error [types.Sort] reports instead of sorting *)
  SortError : list (list (Val Payload)) -> option error
}.

(** [protos.TaskValue], [protos.Result], [protos.Query]. *)
Record TaskValue : Type := { tv_Val : bytes; tv_ValType : TypeID }.
Record Result : Type := { ValueMatrix : list (list TaskValue) }.
Record Query : Type := {
  q_Attr : string;
  q_UidList : list uid;
  q_Reverse : bool
}.

(** Shard routing and remote calls: [group.BelongsTo],
    [groups().ServesGroup], [ProcessTaskOverNetwork]. *)
Record Cluster : Type := {
  BelongsTo : string -> Z;
  ServesGroup : Z -> bool;
  ProcessTaskOverNetwork : Query -> option Result * option error
}.

Arguments Iterate {Payload} _ _ _.
Arguments Uids {Payload} _ _ _.
Arguments ValueFor {Payload} _ _ _.
Arguments Convert {Payload} _ _ _.
Arguments ValueForType {Payload} _ _.
Arguments FromBytes {Payload} _ _.
Arguments Less {Payload} _ _ _.
Arguments SortError {Payload} _ _.

(** ** The engine *)

Section Engine.

Context {Payload : Type}.
Local Abbreviation Val := (Val Payload).

Variable schema : Schema.
Variable keys : Keys.
Variable pstore : Store Payload.
Variable types : Types Payload.
Variable cluster : Cluster.

(** *** [types.Sort]

    Modelled from the spec: [types.Sort] is not among the sources.  A
    stable sort of the identifiers by their rows of values, column after
    column, each column in its own direction, nil greater than every
    value. *)

Definition val_lt (a b : Val) : bool :=
  match Value a, Value b with
  | None, _ => false
  | Some _, None => true
  | Some _, Some _ => Less types a b
  end.

Fixpoint row_before (desc : list bool) (a b : list Val) : bool :=
  match a, b with
  | x :: a', y :: b' =>
      let d := hd false desc in
      if val_lt x y then negb d
      else if val_lt y x then d
      else row_before (tl desc) a' b'
  | _, _ => false
  end.

Fixpoint insert_stable (desc : list bool) (p : list Val * uid)
    (l : list (list Val * uid)) : list (list Val * uid) :=
  match l with
  | [] => [p]
  | q :: l' =>
      if row_before desc (fst q) (fst p) then q :: insert_stable desc p l'
      else p :: q :: l'
  end.

Definition sort_stable (desc : list bool) (l : list (list Val * uid)) :=
  fold_right (insert_stable desc) [] l.

(** [types.Sort(v, ul, desc)]: the identifiers of [ul] in their new order,
    and the error. *)
Definition types_Sort (v : list (list Val)) (ul : list uid) (desc : list bool)
    : list uid * option error :=
  match SortError types v with
  | Some e => (ul, Some e)
  | None => (map snd (sort_stable desc (combine v ul)), None)
  end.

(** *** The value fetcher and the row sorter *)

(** [fetchValue(uid, attr, langs, scalar)] *)
Definition fetchValue (u : uid) (attr : string) (langs : list string)
    (scalar : TypeID) : Val + error :=
  match ValueFor pstore (DataKey keys attr u) langs with
  | inr e => inr e
  | inl src =>
      match Convert types src scalar with
      | inr e => inr e
      | inl dst => inl dst
      end
  end.

(** Whether the fetch succeeds: the identifiers [sortByValue] keeps. *)
Definition fetched (attr : string) (langs : list string) (scalar : TypeID)
    (u : uid) : bool :=
  match fetchValue u attr langs scalar with
  | inl _ => true
  | inr _ => false
  end.

Definition multi (ts : SortMessage) : bool := len (Attr ts) >? 1.

(** The loop of [sortByValue] from position [i] on; [uids], [values] and
    [multiSortVals] are the slices built so far.  [inr] is the early
    return on cancellation, [inl] the three slices at the end of the
    loop. *)
Fixpoint sortByValue_loop (ctx : Context) (ts : SortMessage) (typ : TypeID)
    (rest : list uid) (uids : list uid) (values : list (list Val))
    (multiSortVals : list Val)
    : M (list uid * list (list Val) * list Val + list Val * error) :=
  match rest with
  | [] => ret (inl (uids, values, multiSortVals))
  | u :: rest' =>
      (cancelled <- poll ctx ;;
       if cancelled then ret (inr (multiSortVals, ErrContext))
       else
         attr0 <- lift (index (Attr ts) 0) ;;
         match fetchValue u attr0 (Langs ts) typ with
         | inr _ =>
             (* If a value is missing, skip that UID in the result. *)
             sortByValue_loop ctx ts typ rest' uids values multiSortVals
         | inl val =>
             sortByValue_loop ctx ts typ rest' (uids ++ [u]) (values ++ [[val]])
               (if multi ts then multiSortVals ++ [val] else multiSortVals)
         end)%poll
  end.

(** [sortByValue(ctx, ts, ul, typ)]: the new [ul.Uids], the returned
    values and the returned error. *)
Definition sortByValue (ctx : Context) (ts : SortMessage) (ul : list uid)
    (typ : TypeID) : M (list uid * list Val * option error) :=
  (r <- sortByValue_loop ctx ts typ ul [] [] [] ;;
   match r with
   | inr (vals, e) => ret (ul, vals, Some e)
   | inl (uids, values, multiSortVals) =>
       desc0 <- lift (index (Desc ts) 0) ;;
       let (sorted, err) := types_Sort values uids [desc0] in
       _ <- lift (if multi ts
                  then assertTrue (len sorted =? len multiSortVals)
                  else Done tt) ;;
       ret (sorted, multiSortVals, err)
   end)%poll.

(** *** The pagination helper *)

(** Modelled from the spec: [x.PageRange(count, offset, n)] is not among the
    sources.  [start = min(offset, len)], [end = min(offset+count, len)],
    and a count of zero means all: [end = len]. *)
Definition PageRange (count offset n : Z) : Z * Z :=
  (Z.min offset n, if count =? 0 then n else Z.min (offset + count) n).

(** [paginate(ts, dest)]: the new [dest.Uids]. *)
Definition paginate (ts : SortMessage) (dest : list uid) : run (list uid) :=
  let count := Count ts in
  let offset := Offset ts in
  let (start, stop) := PageRange count offset (len dest) in
  slice dest start stop.

(** *** The scanners' results *)

(** [sortresult]: [reply] is a pointer, [None] when nil. *)
Record sortresult : Type := {
  reply : option SortResult;
  vals : list (list Val);
  err : option error
}.

(** [&sortresult{&emptySortResult, nil, e}] *)
Definition failed (e : error) : sortresult :=
  {| reply := Some emptySortResult; vals := []; err := Some e |}.

(** *** The non-indexed scanner *)

(** The loop of [sortWithoutIndex] over the rows; [acc] is [r.UidMatrix]. *)
Fixpoint sortWithoutIndex_loop (ctx : Context) (ts : SortMessage)
    (sType : TypeID) (rows : list (list uid)) (acc : list (list uid))
    : M sortresult :=
  match rows with
  | [] => ret {| reply := Some {| r_UidMatrix := acc |}; vals := []; err := None |}
  | row :: rows' =>
      (cancelled <- poll ctx ;;
       if cancelled then ret (failed ErrContext)
       else
         ' (tempList, _, e) <- sortByValue ctx ts row sType ;;
         match e with
         | Some e => ret (failed e)
         | None =>
             tempList <- lift (paginate ts tempList) ;;
             sortWithoutIndex_loop ctx ts sType rows' (acc ++ [tempList])
         end)%poll
  end.

(** [sortWithoutIndex(ctx, ts)] *)
Definition sortWithoutIndex (ctx : Context) (ts : SortMessage) : M sortresult :=
  (attr0 <- lift (index (Attr ts) 0) ;;
   match TypeOf schema attr0 with
   | inr _ => ret (failed ErrObjectType)
   | inl sType =>
       if negb (IsScalar sType) then ret (failed ErrObjectType)
       else sortWithoutIndex_loop ctx ts sType (UidMatrix ts) []
   end)%poll.

(** *** The bucket intersector *)

(** [intersectedList] *)
Record intersectedList : Type := {
  offset : Z;
  ulist : list uid;
  values : list Val
}.

(** One turn of the loop of [intersectBucket] over the rows, for the row
    [ul] and its accumulator [il]: the accumulator after the turn, or the
    error the function returns from inside the loop. *)
Definition intersectRow (ctx : Context) (ts : SortMessage) (scalar : TypeID)
    (key : bytes) (ul : list uid) (il : intersectedList)
    : M (intersectedList + error) :=
  let count := Count ts in
  if (count >? 0) && (len (ulist il) >=? count) then ret (inl il)
  else
    (* Intersect index with i-th input UID list. *)
    let result := Uids pstore key ul in
    let n := len result in
    if offset il >=? n then
      (* skip the whole intersection *)
      ret (inl {| offset := offset il - n; ulist := ulist il; values := values il |})
    else
      (' (result, vals, e) <- sortByValue ctx ts result scalar ;;
       match e with
       | Some e => ret (inr e)
       | None =>
           let n := len result in
           ' (result, vals, off, n) <-
               (if offset il >? 0 then
                  (* Apply the offset. *)
                  result' <- lift (slice result (offset il) n) ;;
                  vals' <- (if multi ts then lift (slice vals (offset il) n)
                            else ret vals) ;;
                  ret (result', vals', 0, len result')
                else ret (result, vals, offset il, n)) ;;
           let n :=
             if (count >? 0) && (len (Attr ts) =? 1) then
               let slack := count - len (ulist il) in
               if slack <? n then slack else n
             else n in
           taken <- lift (slice result 0 n) ;;
           values' <- (if multi ts
                       then (v <- lift (slice vals 0 n) ;; ret (values il ++ v))
                       else ret (values il)) ;;
           ret (inl {| offset := off; ulist := ulist il ++ taken; values := values' |})
       end)%poll.

(** The loop over the rows: [rows] are the rows of [ts.UidMatrix] still to
    do and [out] their accumulators, [out[i]] for row [i].  The accumulators
    are updated in place: they come back as far as the loop went, with the
    error that ended it, if any. *)
Fixpoint intersectRows (ctx : Context) (ts : SortMessage) (scalar : TypeID)
    (key : bytes) (rows : list (list uid)) (out : list intersectedList)
    : M (list intersectedList * option error) :=
  match rows, out with
  | [], _ => ret (out, None)
  | _ :: _, [] => lift (Crash IndexOutOfRange)
  | ul :: rows', il :: out' =>
      (r <- intersectRow ctx ts scalar key ul il ;;
       match r with
       | inr e => ret (il :: out', Some e)
       | inl il' =>
           ' (out'', e) <- intersectRows ctx ts scalar key rows' out' ;;
           ret (il' :: out'', e)
       end)%poll
  end.

(** The closing loop of [intersectBucket]: check [out[i]] sizes for all
    [i]. *)
Fixpoint checkSizes (ts : SortMessage) (rows : list (list uid))
    (out : list intersectedList) : run error :=
  match rows, out with
  | [], _ => Done errDone
  | _ :: _, [] => Crash IndexOutOfRange
  | _ :: rows', il :: out' =>
      if len (ulist il) <? Count ts then Done errContinue
      else
        ((if len (Attr ts) =? 1
          then assertTrue (len (ulist il) =? Count ts)
          else Done tt) ;;;
         checkSizes ts rows' out')%run
  end.

(** [intersectBucket(ctx, ts, token, out)]: the accumulators after the
    call and the error returned, which is never nil. *)
Definition intersectBucket (ctx : Context) (ts : SortMessage) (token : string)
    (out : list intersectedList) : M (list intersectedList * error) :=
  (attr <- lift (index (Attr ts) 0) ;;
   match TypeOf schema attr with
   | inr _ => ret (out, ErrObjectType)
   | inl sType =>
       if negb (IsScalar sType) then ret (out, ErrObjectType)
       else
         let key := IndexKey keys attr token in
         ' (out', e) <- intersectRows ctx ts sType key (UidMatrix ts) out ;;
         match e with
         | Some e => ret (out', e)
         | None =>
             e <- lift (checkSizes ts (UidMatrix ts) out') ;;
             ret (out', e)
         end
   end)%poll.

(** *** The indexed scanner *)

(** "Get the first sortable index." *)
Definition firstSortable (tokenizers : list Tokenizer) : option Tokenizer :=
  find IsSortable tokenizers.

(** [string(b)] for a byte [b]: a one-byte string, tokenizer identifiers
    being below 128. *)
Definition byteString (b : Z) : string :=
  String (Ascii.ascii_of_N (Z.to_N (b mod 256))) EmptyString.

(** The loop labelled [BUCKETS]: [ks] are the keys the iterator has still
    to visit.  [inl] is the accumulators when the loop is left, [inr] the
    result returned from inside it. *)
Fixpoint buckets (ctx : Context) (ts : SortMessage) (indexPrefix : bytes)
    (ks : list bytes) (out : list intersectedList)
    : M (list intersectedList + sortresult) :=
  match ks with
  | [] => ret (inl out)                      (* it.Valid() is false *)
  | key :: ks' =>
      if negb (String.prefix indexPrefix key) then ret (inl out)
      else
        (cancelled <- poll ctx ;;
         if cancelled then ret (inr (failed ErrContext))
         else
           match Parse keys key with
           | None => lift (Crash AssertionFailed)       (* k != nil *)
           | Some k =>
               _ <- lift (assertTrue (IsIndex k)) ;;
               let token := Term k in
               ' (out', e) <- intersectBucket ctx ts token out ;;
               match e with
               | errDone => ret (inl out')
               | errContinue => buckets ctx ts indexPrefix ks' out'
               | _ => ret (inr (failed e))
               end
           end)%poll
  end.

(** [sortWithIndex] from [indexPrefix := ...] on, once the tokenizer is
    chosen: the walk over the key range and the result. *)
Definition scanIndex (ctx : Context) (ts : SortMessage) (attr0 : string)
    (desc0 : bool) (tokenizer : Tokenizer) (out : list intersectedList)
    : M sortresult :=
  let indexPrefix := IndexKey keys attr0 (byteString (Identifier tokenizer)) in
  let seekKey :=
    if negb desc0 then indexPrefix
    else IndexKey keys attr0 (byteString (Identifier tokenizer + 1)) in
  (r <- buckets ctx ts indexPrefix (Iterate pstore desc0 seekKey) out ;;
   match r with
   | inr res => ret res
   | inl out' =>
       let r := {| r_UidMatrix := map ulist out' |} in
       let values := if multi ts then map values out' else [] in
       cancelled <- poll ctx ;;
       if cancelled then ret (failed ErrContext)
       else ret {| reply := Some r; vals := values; err := None |}
   end)%poll.

(** [sortWithIndex(ctx, ts)] *)
Definition sortWithIndex (ctx : Context) (ts : SortMessage) : M sortresult :=
  let n := List.length (UidMatrix ts) in
  let out := repeat {| offset := Offset ts; ulist := []; values := [] |} n in
  (desc0 <- lift (index (Desc ts) 0) ;;        (* iterOpt.Reverse *)
   attr0 <- lift (index (Attr ts) 0) ;;
   match TypeOf schema attr0 with
   | inr _ => ret (failed ErrNotDefined)
   | inl typ =>
       (* Get the tokenizers and choose the corresponding one. *)
       if negb (IsIndexed schema attr0) then ret (failed ErrNotIndexed)
       else
         match firstSortable (Tokenizers schema attr0) with
         | None =>
             if TypeID_eqb typ StringID then ret (failed ErrNoExactIndex)
             else ret (failed ErrNotSortable)
         | Some tokenizer => scanIndex ctx ts attr0 desc0 tokenizer out
         end
   end)%poll.

(** *** The multi-attribute extender *)

(** Insertion in an ascending list without duplicates. *)
Fixpoint insertUid (u : uid) (l : list uid) : list uid :=
  match l with
  | [] => [u]
  | x :: l' =>
      if (u <? x)%N then u :: l
      else if (u =? x)%N then l
      else x :: insertUid u l'
  end.

(** [destUids(uidMatrix)]: the identifiers of all the rows, each once, in
    ascending order. *)
Definition destUids (uidMatrix : list (list uid)) : list uid :=
  fold_right insertUid [] (List.concat uidMatrix).

(** Modelled from the spec: [algo.IndexOf] is not among the sources.  The
    index of [u] in [l], a negative number when it is absent. *)
Fixpoint IndexOf_from (i : Z) (l : list uid) (u : uid) : Z :=
  match l with
  | [] => -1
  | x :: l' => if (x =? u)%N then i else IndexOf_from (i + 1) l' u
  end.

Definition IndexOf (l : list uid) (u : uid) : Z := IndexOf_from 0 l u.

Definition seenUid (seen : list uid) (u : uid) : bool :=
  existsb (N.eqb u) seen.

(** [sortVals[i][k] = v] *)
Definition setSortVal (sortVals : list (list Val)) (i k : Z) (v : Val)
    : run (list (list Val)) :=
  (row <-- index sortVals i ;;;
   row' <-- assign row k v ;;;
   assign sortVals i row')%run.

(** "Walk through the uidMatrix and put values for this attribute in
    sortVals": the inner loop, over one row, from position [j]. *)
Fixpoint fillPrimaryRow (dest : list uid) (rowVals : list Val) (j : Z)
    (uids : list uid) (seen : list uid) (sortVals : list (list Val))
    : run (list uid * list (list Val)) :=
  match uids with
  | [] => Done (seen, sortVals)
  | u :: uids' =>
      (let uidx := IndexOf dest u in
       assertTrue (uidx >=? 0) ;;;
       if seenUid seen u then
         fillPrimaryRow dest rowVals (j + 1) uids' seen sortVals
       else
         v <-- index rowVals j ;;;
         sortVals' <-- setSortVal sortVals uidx 0 v ;;;
         fillPrimaryRow dest rowVals (j + 1) uids' (u :: seen) sortVals')%run
  end.

(** The outer loop, over the rows of the reply, from row [i]. *)
Fixpoint fillPrimary (dest : list uid) (vals : list (list Val)) (i : Z)
    (rows : list (list uid)) (seen : list uid) (sortVals : list (list Val))
    : run (list (list Val)) :=
  match rows with
  | [] => Done sortVals
  | ul :: rows' =>
      (rowVals <-- index vals i ;;;
       assertTrue (len ul =? len rowVals) ;;;
       ' (seen', sortVals') <-- fillPrimaryRow dest rowVals 0 ul seen sortVals ;;;
       fillPrimary dest vals (i + 1) rows' seen' sortVals')%run
  end.

(** [orderResult] *)
Record orderResult : Type := {
  idx : Z;
  r : option Result;
  o_err : option error
}.

(** [fetchValues(ctx, in, idx, or)]: what it sends on the channel. *)
Definition fetchValues (attr : string) (dest : list uid) (i : Z) : orderResult :=
  let reverse := String.prefix "~" attr in
  let attr' := if reverse then String.substring 1 (String.length attr - 1) attr
               else attr in
  let (res, e) := ProcessTaskOverNetwork cluster
                    {| q_Attr := attr'; q_UidList := dest; q_Reverse := reverse |} in
  {| idx := i; r := res; o_err := e |}.

(** One received [orderResult]: the loop over [destUids.Uids] from position
    [i].  [inr] is the conversion error that makes [processSort] return. *)
Fixpoint storeSecondary (valueMatrix : list (list TaskValue)) (k : Z) (i : Z)
    (dest : list uid) (seen : list uid) (sortVals : list (list Val))
    : run (list (list Val) + error) :=
  match dest with
  | [] => Done (inl sortVals)
  | u :: dest' =>
      if seenUid seen u then
        storeSecondary valueMatrix k (i + 1) dest' seen sortVals
      else
        (vl <-- index valueMatrix i ;;;
         v <-- index vl 0 ;;;
         let val := ValueForType types (tv_ValType v) in
         if String.eqb (tv_Val v) (Nilbyte keys) then
           (* nil value which is sorted as greater than all other values *)
           let sv := {| Tid := Tid val; Value := None |} in
           sortVals' <-- setSortVal sortVals i k sv ;;;
           storeSecondary valueMatrix k (i + 1) dest' (u :: seen) sortVals'
         else
           let val := {| Tid := Tid val; Value := Some (FromBytes types (tv_Val v)) |} in
           match Convert types val (Tid val) with
           | inr e => Done (inr e)
           | inl sv =>
               sortVals' <-- setSortVal sortVals i k sv ;;;
               storeSecondary valueMatrix k (i + 1) dest' (u :: seen) sortVals'
           end)%run
  end.

(** The loop that receives the [orderResult]s, [och] being what the channel
    still holds, in the order of delivery. *)
Fixpoint receiveOrders (dest : list uid) (och : list orderResult)
    (oerr : option error) (sortVals : list (list Val))
    : run (option error * list (list Val) + error) :=
  match och with
  | [] => Done (inl (oerr, sortVals))
  | or :: och' =>
      match o_err or, oerr with
      | Some e, None => receiveOrders dest och' (Some e) sortVals
      | _, _ =>
          match r or with
          | None => Crash NilDereference
          | Some result =>
              (assertTrue (len (ValueMatrix result) =? len dest) ;;;
               s <-- storeSecondary (ValueMatrix result) (idx or) 0 dest [] sortVals ;;;
               match s with
               | inr e => Done (inr e)
               | inl sortVals' => receiveOrders dest och' oerr sortVals'
               end)%run
          end
      end
  end.

(** "Values have been accumulated, now we do the multisort for each list":
    the values of one row, from position [j]. *)
Fixpoint rowSortVals (dest : list uid) (sortVals : list (list Val))
    (uids : list uid) : run (list (list Val)) :=
  match uids with
  | [] => Done []
  | u :: uids' =>
      (let i := IndexOf dest u in
       assertTrue (i >=? 0) ;;;
       v <-- index sortVals i ;;;
       vs <-- rowSortVals dest sortVals uids' ;;;
       Done (v :: vs))%run
  end.

(** One turn of the last loop of [processSort]: the row it stores back. *)
Definition multiSortRow (ts : SortMessage) (dest : list uid)
    (sortVals : list (list Val)) (ul : list uid) : run (list uid) :=
  (vals <-- rowSortVals dest sortVals ul ;;;
   let (sorted, _) := types_Sort vals ul (Desc ts) in
   assertTrue (len sorted >=? Count ts) ;;;
   (* Paginate *)
   slice sorted 0 (Count ts))%run.

Fixpoint multiSortRows (ts : SortMessage) (dest : list uid)
    (sortVals : list (list Val)) (rows : list (list uid)) : run (list (list uid)) :=
  match rows with
  | [] => Done []
  | ul :: rows' =>
      (ul' <-- multiSortRow ts dest sortVals ul ;;;
       rest <-- multiSortRows ts dest sortVals rows' ;;;
       Done (ul' :: rest))%run
  end.

(** *** The strategy racer and [processSort] *)

(** What the code leaves to the scheduler.  The two scanners run in
    goroutines of their own and poll the derived context [cctx], each at its
    own pace; [processSort] takes their results from [resCh] in the order of
    arrival, and the results of the [fetchValues] goroutines from [och]
    likewise. *)
Record Schedule : Type := {
  (* in the first goroutine, the 3 ms timer fires before [ctx.Done()] *)
  timerFirst : bool;
  (* the result of [sortWithIndex] is the first on [resCh] *)
  indexedFirst : bool;
  (* the polls of [cctx] by [sortWithoutIndex] and by [sortWithIndex] *)
  cctxWithout : Context;
  cctxWith : Context;
  (* the indices 1 .. len(ts.Attr)-1 in the order in which their
     [orderResult]s arrive on [och] *)
  arrival : list Z
}.

(** A goroutine runs its scanner from its first poll on. *)
Definition runScanner {A : Type} (m : M A) : run A :=
  match m O with
  | Done (a, _) => Done a
  | Crash c => Crash c
  end.

(** The two goroutines and the two receptions from [resCh]: the result
    [processSort] goes on with.  A goroutine that panics takes the process
    down, whichever result is awaited. *)
Definition race (sch : Schedule) (ts : SortMessage) : run sortresult :=
  (without <-- (if timerFirst sch
                then runScanner (sortWithoutIndex (cctxWithout sch) ts)
                else Done {| reply := None; vals := []; err := Some ErrContext |}) ;;;
   withIndex <-- runScanner (sortWithIndex (cctxWith sch) ts) ;;;
   let (first, second) :=
     if indexedFirst sch then (withIndex, without) else (without, withIndex) in
   match err first with
   | None => Done first          (* cancel(); <-resCh *)
   | Some _ => Done second       (* r = <-resCh *)
   end)%run.

(** The [fetchValues] goroutines, in the order of their deliveries. *)
Fixpoint spawnOrders (ts : SortMessage) (dest : list uid) (arr : list Z)
    : run (list orderResult) :=
  match arr with
  | [] => Done []
  | i :: arr' =>
      (attr <-- index (Attr ts) i ;;;
       rest <-- spawnOrders ts dest arr' ;;;
       Done (fetchValues attr dest i :: rest))%run
  end.

(** [processSort] from its comment "SrcUids for other queries are all the
    uids present in the response of the first sort" on: [res] is the
    result taken from the racer. *)
Definition extend (sch : Schedule) (ts : SortMessage) (res : sortresult)
    : run (option SortResult * option error) :=
  match reply res with
  | None => Crash NilDereference
  | Some rep =>
      (let dest := destUids (r_UidMatrix rep) in
       let sortVals :=
         repeat (repeat zeroVal (List.length (Attr ts))) (List.length dest) in
       sortVals <-- fillPrimary dest (vals res) 0 (r_UidMatrix rep) [] sortVals ;;;
       och <-- spawnOrders ts dest (arrival sch) ;;;
       got <-- receiveOrders dest och None sortVals ;;;
       match got with
       | inr e => Done (reply res, Some e)
       | inl (Some e, _) => Done (reply res, Some e)
       | inl (None, sortVals) =>
           rows <-- multiSortRows ts dest sortVals (r_UidMatrix rep) ;;;
           Done (Some {| r_UidMatrix := rows |}, None)
       end)%run
  end.

(** [processSort(ctx, ts)] *)
Definition processSort (sch : Schedule) (ts : SortMessage)
    : run (option SortResult * option error) :=
  if Count ts <? 0 then Done (None, Some ErrNegativeCount)
  else
    (attr0 <-- index (Attr ts) 0 ;;;
     if IsList schema attr0 then Done (None, Some ErrListType)
     else
       res <-- race sch ts ;;;
       (* If request didn't have multiple attributes or err was not nil we
          return. *)
       if negb (len (Attr ts) >? 1) || isErr (err res)
       then Done (reply res, err res)
       else extend sch ts res)%run.

(** *** The RPC handler *)

(** [(w *grpcWorker) Sort(ctx, s)].  [ctx] is polled twice: by
    [ctx.Err() != nil] on entry, and by the final [select], where a closed
    [ctx.Done()] stands for the branch [<-ctx.Done()] being taken. *)
Definition Sort (ctx : Context) (sch : Schedule) (s : SortMessage)
    : run (option SortResult * option error) :=
  if ctx O then Done (Some emptySortResult, Some ErrContext)
  else
    (attr0 <-- index (Attr s) 0 ;;;
     let gid := BelongsTo cluster attr0 in
     assertTrue (ServesGroup cluster gid) ;;;
     res <-- processSort sch s ;;;
     if ctx 1%nat then Done (Some emptySortResult, Some ErrContext)
     else Done res)%run.

End Engine.

Arguments intersectedList : clear implicits.
Arguments sortresult : clear implicits.

(** ** The dispatcher *)

Section Dispatcher.

Context {Payload : Type}.
Variable schema : Schema.
Variable keys : Keys.
Variable pstore : Store Payload.
Variable types : Types Payload.
Variable cluster : Cluster.

(** [processWithBackupRequest(ctx, gid, f)] for the [f] of
    [SortOverNetwork], which calls [c.Sort(ctx, q)] on a server of the group:
    the reply and the error that come back.  The function is not among the
    sources. *)
Variable processWithBackupRequest :
  Z -> SortMessage -> option SortResult * option error.

(** [SortOverNetwork(ctx, q)] *)
Definition SortOverNetwork (sch : Schedule) (q : SortMessage)
    : run (option SortResult * option error) :=
  (attr0 <-- index (Attr q) 0 ;;;
   let gid := BelongsTo cluster attr0 in
   if ServesGroup cluster gid then
     (* No need for a network call, as this should be run from within this
        instance. *)
     processSort schema keys pstore types cluster sch q
   else
     let (result, err) := processWithBackupRequest gid q in
     match err with
     | Some e => Done (None, Some e)
     | None => Done (result, None)
     end)%run.

End Dispatcher.

(** ** A small database

    A catalog, a store and a cluster to run the engine on.  Payloads are
    integers.  The attributes: [age], an indexed integer; [name], a string
    with an exact index after a term index, whose values exist per
    language; [nick], a string without index; [friend], an object. *)

Module Db.

Local Open Scope string_scope.

Definition intTok : Tokenizer := {| Identifier := 6; Name := "int"; IsSortable := true |}.
Definition termTok : Tokenizer := {| Identifier := 1; Name := "term"; IsSortable := false |}.
Definition exactTok : Tokenizer := {| Identifier := 2; Name := "exact"; IsSortable := true |}.

Definition schema : Schema := {|
  TypeOf a :=
    if String.eqb a "age" then inl IntID
    else if String.eqb a "name" then inl StringID
    else if String.eqb a "nick" then inl StringID
    else if String.eqb a "friend" then inl UidID
    else inr (ErrOther "Schema not defined for attribute");
  IsList a := false;
  IsIndexed a := String.eqb a "age" || String.eqb a "name";
  Tokenizers a :=
    if String.eqb a "age" then [intTok]
    else if String.eqb a "name" then [termTok; exactTok]
    else []
|}.

(** Keys: a tag, the attribute, a colon, then the term or the identifier. *)
Definition uidString (u : uid) : string :=
  String (Ascii.ascii_of_N u) EmptyString.

Fixpoint afterColon (s : string) : string :=
  match s with
  | EmptyString => EmptyString
  | String c s' => if Ascii.eqb c ":"%char then s' else afterColon s'
  end.

Definition keys : Keys := {|
  IndexKey a term := String.append "i" (String.append a (String.append ":" term));
  DataKey a u := String.append "d" (String.append a (String.append ":" (uidString u)));
  Parse k :=
    match k with
    | String c _ => Some {| IsIndex := Ascii.eqb c "i"%char; Term := afterColon k |}
    | EmptyString => None
    end;
  Nilbyte := String Ascii.zero EmptyString
|}.

Definition ageTerm (token : string) : string := String.append (byteString 6) token.
Definition nameTerm (token : string) : string := String.append (byteString 2) token.

(** The index, in key order: ages 10 (identifiers 2 and 4), 20 (3), 30 (1);
    the exact name "a" (identifiers 1, 2 and 3). *)
Definition indexEntries : list (bytes * list uid) :=
  [ (IndexKey keys "age" (ageTerm "10"), [2; 4]%N);
    (IndexKey keys "age" (ageTerm "20"), [3]%N);
    (IndexKey keys "age" (ageTerm "30"), [1]%N);
    (IndexKey keys "name" (nameTerm "a"), [1; 2; 3]%N) ].

(** The values: every age, and the names, which identifiers 2 and 3 only
    have untagged. *)
Definition ages : list (uid * Z) := [ (1%N, 30); (2%N, 10); (3%N, 20); (4%N, 10) ].

Definition lookupZ (u : uid) (l : list (uid * Z)) : option Z :=
  option_map snd (find (fun p => N.eqb (fst p) u) l).

Definition valueOf (a : string) (langs : list string) (u : uid) : option Z :=
  if String.eqb a "age" then lookupZ u ages
  else if String.eqb a "name" then
    match langs with
    | [] => if (u <=? 3)%N then Some 97 else None
    | _ :: _ => if (u =? 1)%N then Some 97 else None
    end
  else if String.eqb a "nick" then
    if (u <=? 3)%N then Some (Z.of_N u) else None
  else None.

Definition dataEntries (langs : list string) : list (bytes * Z) :=
  flat_map (fun a =>
    flat_map (fun u =>
      match valueOf a langs u with
      | Some z => [ (DataKey keys a u, z) ]
      | None => []
      end) [1; 2; 3; 4]%N) [ "age"; "name"; "nick" ].

Definition lookupKey {A : Type} (k : bytes) (l : list (bytes * A)) : option A :=
  option_map snd (find (fun p => String.eqb (fst p) k) l).

Definition pstore : Store Z := {|
  Iterate reverse seek :=
    if reverse
    then rev (filter (fun k => String.leb k seek) (map fst indexEntries))
    else filter (fun k => String.leb seek k) (map fst indexEntries);
  Uids k ul :=
    match lookupKey k indexEntries with
    | Some pl => filter (fun u => existsb (N.eqb u) ul) pl
    | None => []
    end;
  ValueFor k langs :=
    match lookupKey k (dataEntries langs) with
    | Some z => inl {| Tid := DefaultID; Value := Some z |}
    | None => inr (ErrOther "No value found")
    end
|}.

Definition types : Types Z := {|
  Convert v t := inl {| Tid := t; Value := Value v |};
  ValueForType t := {| Tid := t; Value := None |};
  FromBytes b := Z.of_nat (String.length b);
  Less a b :=
    match Value a, Value b with
    | Some x, Some y => (x <? y)%Z
    | _, _ => false
    end;
  SortError v := None
|}.

(** One group, served here; every remote attribute answers with a nil value
    for every identifier. *)
Definition cluster : Cluster := {|
  BelongsTo a := 1;
  ServesGroup g := (g =? 1)%Z;
  ProcessTaskOverNetwork q :=
    (Some {| ValueMatrix :=
               map (fun _ => [ {| tv_Val := Nilbyte keys; tv_ValType := IntID |} ])
                   (q_UidList q) |}, None)
|}.

(** The same, on a server that does not serve the group. *)
Definition elsewhere : Cluster := {|
  BelongsTo a := 1;
  ServesGroup g := false;
  ProcessTaskOverNetwork := ProcessTaskOverNetwork cluster
|}.

(** A context that is never cancelled, and one cancelled from the start. *)
Definition background : Context := fun _ => false.
Definition cancelled : Context := fun _ => true.

(** The usual schedule: the timer fires, the indexed scanner answers
    first, nothing is cancelled. *)
Definition usual (arr : list Z) : Schedule := {|
  timerFirst := true;
  indexedFirst := true;
  cctxWithout := background;
  cctxWith := background;
  arrival := arr
|}.

Definition request (attrs : list string) (desc : list bool)
    (m : list (list uid)) (off cnt : Z) (langs : list string) : SortMessage :=
  {| Attr := attrs; Desc := desc; UidMatrix := m;
     Offset := off; Count := cnt; Langs := langs |}.

(** The schedule in which the non-indexed scanner answers first. *)
Definition withoutFirst (arr : list Z) : Schedule := {|
  timerFirst := true;
  indexedFirst := false;
  cctxWithout := background;
  cctxWith := background;
  arrival := arr
|}.

(** The requests of the runs below. *)
Definition byAge : SortMessage :=
  request ["age"] [false] [[1; 2; 3; 4]%N] 0 3 [].
Definition byNick : SortMessage :=
  request ["nick"] [true] [[1; 2; 3; 4]%N] 1 2 [].
Definition byFriend : SortMessage :=
  request ["friend"] [false] [[1; 2; 3]%N] 0 3 [].
Definition byNickThenAge : SortMessage :=
  request ["nick"; "age"] [false; false] [[1; 2; 3]%N] 0 2 [].
Definition byAgeThenNick (rows : list (list uid)) (cnt : Z) : SortMessage :=
  request ["age"; "nick"] [false; false] rows 0 cnt [].
Definition byFrenchName : SortMessage :=
  request ["name"] [false] [[1; 2; 3]%N] 2 5 ["fr"].

(** An accumulator at the start of a scan, [fresh off], and the one of
    [byAgeThenNick [[2; 3; 4]] 1] after the bucket of age 10. *)
Definition fresh (off : Z) : intersectedList Z :=
  {| offset := off; ulist := []; values := [] |}.

(** More requests: by nick descending then age, and by age with a count
    of zero on a row that the bucket of age 10 does not meet. *)
Definition byNickDescThenAge : SortMessage :=
  request ["nick"; "age"] [true; false] [[1; 2; 3]%N] 0 2 [].
Definition byAgeAll : SortMessage :=
  request ["age"] [false] [[1; 3]%N] 0 0 [].

(** The order a failed fetch for the attribute of index 1 puts on the
    channel. *)
Definition failedOrder : orderResult :=
  {| idx := 1; r := None; o_err := Some (ErrOther "connection refused") |}.

(** A remote server that never answers. *)
Definition unreachable (gid : Z) (q : SortMessage)
    : option SortResult * option error :=
  (None, Some (ErrOther "connection refused")).

End Db.


(** * Properties *)

(** ** The Go run time *)

Lemma len_nonneg {A : Type} (s : list A) : 0 <= len s.
Proof. unfold len. lia. Qed.

Lemma slice_prefix {A : Type} (s : list A) (n : Z) :
  0 <= n <= len s -> slice s 0 n = Done (firstn (Z.to_nat n) s).
Proof.
  intros [H0 Hn]. unfold slice.
  replace (0 <=? 0) with true by reflexivity.
  destruct (Z.leb_spec 0 n); [|lia].
  destruct (Z.leb_spec n (len s)); [|lia].
  cbn. now rewrite Z.sub_0_r.
Qed.

(** ** The stable sort of [types.Sort] *)

Section SortFacts.

Context {Payload : Type}.
Variable types : Types Payload.

Lemma insert_stable_perm (desc : list bool) (p : list (Val Payload) * uid) l :
  Permutation (insert_stable types desc p l) (p :: l).
Proof.
  induction l as [|q l IH]; cbn.
  - apply Permutation_refl.
  - destruct (row_before types desc (fst q) (fst p)).
    + eapply Permutation_trans; [apply perm_skip, IH | apply perm_swap].
    + apply Permutation_refl.
Qed.

Lemma sort_stable_perm (desc : list bool) l :
  Permutation (sort_stable types desc l) l.
Proof.
  induction l as [|p l IH]; cbn.
  - apply perm_nil.
  - eapply Permutation_trans; [apply insert_stable_perm | now apply perm_skip].
Qed.

Lemma map_snd_combine {A B : Type} (v : list A) (l : list B) :
  List.length v = List.length l -> map snd (combine v l) = l.
Proof.
  revert l. induction v as [|a v IH]; intros [|b l]; cbn; try discriminate; auto.
  intros H. f_equal. apply IH. now injection H.
Qed.

(** [types.Sort] only reorders the identifiers. *)
Lemma types_Sort_perm v (ul : list uid) desc :
  List.length v = List.length ul ->
  Permutation (fst (types_Sort types v ul desc)) ul.
Proof.
  intros Hlen. unfold types_Sort.
  destruct (SortError types v); cbn.
  - apply Permutation_refl.
  - rewrite <- (map_snd_combine v ul Hlen) at 2.
    apply Permutation_map, sort_stable_perm.
Qed.

Lemma types_Sort_length v (ul : list uid) desc :
  List.length v = List.length ul ->
  List.length (fst (types_Sort types v ul desc)) = List.length ul.
Proof. intros H. apply Permutation_length, types_Sort_perm, H. Qed.

End SortFacts.

(** ** The row sorter *)

Section RowSorterFacts.

Context {Payload : Type}.
Variable keys : Keys.
Variable pstore : Store Payload.
Variable types : Types Payload.


(** The loop of [sortByValue] when no poll finds the context cancelled: it
    makes one poll per identifier and keeps the identifiers whose fetch
    succeeds, in their order. *)
Lemma sortByValue_loop_run (ctx : Context) (ts : SortMessage) (typ : TypeID)
    (attr0 : string) (rest : list uid) :
  forall (uids : list uid) (values : list (list (Val Payload)))
         (msv : list (Val Payload)) (k : nat),
    index (Attr ts) 0 = Done attr0 ->
    (forall j, (k <= j < k + List.length rest)%nat -> ctx j = false) ->
    exists values' msv',
      sortByValue_loop keys pstore types ctx ts typ rest uids values msv k =
        Done (inl (uids ++ filter (fetched keys pstore types attr0 (Langs ts) typ) rest,
                   values', msv'), (k + List.length rest)%nat) /\
      List.length values' =
        (List.length values +
         List.length (filter (fetched keys pstore types attr0 (Langs ts) typ) rest))%nat /\
      List.length msv' =
        (List.length msv +
         if multi ts
         then List.length (filter (fetched keys pstore types attr0 (Langs ts) typ) rest)
         else 0)%nat.
Proof.
  induction rest as [|u rest IH]; intros uids values msv k Hattr Hctx.
  - exists values, msv. cbn. rewrite app_nil_r, !Nat.add_0_r.
    repeat split; destruct (multi ts); cbn; lia.
  - cbn [sortByValue_loop]. unfold bind at 1. unfold poll.
    rewrite (Hctx k) by (cbn; lia).
    unfold bind at 1. unfold lift. rewrite Hattr.
    assert (Hctx' : forall j, (S k <= j < S k + List.length rest)%nat -> ctx j = false)
      by (intros j Hj; apply Hctx; cbn; lia).
    replace (k + List.length (u :: rest))%nat with (S k + List.length rest)%nat
      by (cbn; lia).
    cbn [filter].
    destruct (fetchValue keys pstore types u attr0 (Langs ts) typ) as [val|e] eqn:Hf.
    + assert (Hfd : fetched keys pstore types attr0 (Langs ts) typ u = true)
        by (unfold fetched; now rewrite Hf).
      rewrite Hfd.
      destruct (IH (uids ++ [u]) (values ++ [[val]])
                  (if multi ts then msv ++ [val] else msv) (S k) Hattr Hctx')
        as (values' & msv' & Hrun & Hv & Hm).
      exists values', msv'. rewrite Hrun, <- app_assoc. cbn [app List.length].
      repeat split.
      * rewrite Hv, length_app. cbn. lia.
      * rewrite Hm. destruct (multi ts); [rewrite length_app; cbn|]; lia.
    + assert (Hfd : fetched keys pstore types attr0 (Langs ts) typ u = false)
        by (unfold fetched; now rewrite Hf).
      rewrite Hfd.
      destruct (IH uids values msv (S k) Hattr Hctx') as (values' & msv' & Hrun & Hv & Hm).
      exists values', msv'. rewrite Hrun. auto.
Qed.

(** The loop returns early with the context's error as soon as a poll
    finds the context cancelled, and with nothing else. *)
Lemma sortByValue_loop_cancel (ctx : Context) (ts : SortMessage) (typ : TypeID)
    (rest : list uid) :
  forall uids values msv k r k',
    sortByValue_loop keys pstore types ctx ts typ rest uids values msv k = Done (r, k') ->
    (k <= k')%nat /\
    ((exists j, (k <= j < k')%nat /\ ctx j = true) ->
     exists vals, r = inr (vals, ErrContext)).
Proof.
  induction rest as [|u rest IH]; intros uids values msv k r k' Hrun.
  - cbn in Hrun. injection Hrun as <- <-. split; [lia|].
    intros (j & Hj & _). lia.
  - cbn [sortByValue_loop] in Hrun. unfold bind at 1 in Hrun. unfold poll in Hrun.
    destruct (ctx k) eqn:Hk.
    + cbn in Hrun. injection Hrun as <- <-. split; [lia|]. intros _. now eexists.
    + unfold bind at 1 in Hrun. unfold lift in Hrun.
      destruct (index (Attr ts) 0) as [attr0|c]; [|discriminate].
      destruct (fetchValue keys pstore types u attr0 (Langs ts) typ);
        apply IH in Hrun as [Hle Hc]; (split; [lia|]);
        intros (j & Hj & Hcj); apply Hc; exists j; (split; [|exact Hcj]);
        destruct (Nat.eq_dec j k) as [->|]; try congruence; lia.
Qed.


End RowSorterFacts.

(** ** The polling monad *)

Lemma bind_Done {A B : Type} (m : M A) (f : A -> M B) (k : nat) (b : B) (k' : nat) :
  bind m f k = Done (b, k') ->
  exists a k1, m k = Done (a, k1) /\ f a k1 = Done (b, k').
Proof.
  unfold bind. destruct (m k) as [[a k1]|c]; [|discriminate].
  intros H. now exists a, k1.
Qed.

Lemma ret_Done {A : Type} (a b : A) (k k' : nat) :
  ret a k = Done (b, k') -> b = a /\ k' = k.
Proof. unfold ret. intros H. injection H as -> ->. auto. Qed.

Lemma lift_Done {A : Type} (r : run A) (a : A) (k k' : nat) :
  lift r k = Done (a, k') -> r = Done a /\ k' = k.
Proof.
  unfold lift. destruct r; [|discriminate].
  intros H. injection H as -> ->. auto.
Qed.

Lemma nopoll_ret {A : Type} (a : A) : nopoll (ret a).
Proof. intros k b k' H. now apply ret_Done in H. Qed.

Lemma nopoll_lift {A : Type} (r : run A) : nopoll (lift r).
Proof. intros k b k' H. now apply lift_Done in H. Qed.

Lemma nopoll_bind {A B : Type} (m : M A) (f : A -> M B) :
  nopoll m -> (forall a, nopoll (f a)) -> nopoll (bind m f).
Proof.
  intros Hm Hf k b k' H. apply bind_Done in H as (a & k1 & H1 & H2).
  apply Hm in H1. apply Hf in H2. congruence.
Qed.

Ltac nopoll_tac :=
  repeat first
    [ apply nopoll_ret
    | apply nopoll_lift
    | apply nopoll_bind
    | match goal with
      | |- forall _, _ => intro
      | |- nopoll (match ?x with _ => _ end) => destruct x
      end ].

Lemma cancelSeen_empty (ctx : Context) (k : nat) : ~ cancelSeen ctx k k.
Proof. intros (j & Hj & _). lia. Qed.

Lemma cancelSeen_split (ctx : Context) (k k1 k' : nat) :
  cancelSeen ctx k k' -> cancelSeen ctx k k1 \/ cancelSeen ctx k1 k'.
Proof.
  intros (j & Hj & Hc). destruct (Nat.lt_ge_cases j k1).
  - left. exists j. split; [lia | exact Hc].
  - right. exists j. split; [lia | exact Hc].
Qed.

Lemma cancelSeen_first (ctx : Context) (k k' : nat) :
  ctx k = false -> cancelSeen ctx k k' -> cancelSeen ctx (S k) k'.
Proof.
  intros Hk (j & Hj & Hc). exists j. split; [|exact Hc].
  destruct (Nat.eq_dec j k) as [->|]; [congruence | lia].
Qed.

(** ** Cancellation in the scanners *)

Section CancellationFacts.

Context {Payload : Type}.
Variable schema : Schema.
Variable keys : Keys.
Variable pstore : Store Payload.
Variable types : Types Payload.

(** [sortByValue] reports the context's error when one of its polls finds
    the context cancelled. *)
Lemma sortByValue_cancel (ctx : Context) (ts : SortMessage) (ul : list uid)
    (typ : TypeID) (k : nat) out vals e (k' : nat) :
  sortByValue keys pstore types ctx ts ul typ k = Done ((out, vals, e), k') ->
  (k <= k')%nat /\ (cancelSeen ctx k k' -> e = Some ErrContext).
Proof.
  unfold sortByValue. intros H.
  apply bind_Done in H as (r & k1 & Hloop & Htail).
  apply sortByValue_loop_cancel in Hloop as [Hle Hseen].
  destruct r as [[[uids values] msv]|[vals0 e0]].
  - assert (Hk : k' = k1).
    { match type of Htail with
      | ?m k1 = _ => assert (Hn : nopoll m) by nopoll_tac
      end.
      exact (Hn _ _ _ Htail). }
    subst k'. split; [exact Hle|].
    intros Hc. destruct (Hseen Hc) as [v Hv]. discriminate.
  - apply ret_Done in Htail as [Heq ->]. injection Heq as -> -> ->.
    split; [exact Hle|].
    intros Hc. destruct (Hseen Hc) as [v Hv]. now injection Hv as _ ->.
Qed.

(** Every result of the non-indexed scanner that carries an error is
    [failed e], and it is [failed ErrContext] when a poll found the context
    cancelled. *)
Lemma sortWithoutIndex_loop_cancel (ctx : Context) (ts : SortMessage)
    (sType : TypeID) (rows : list (list uid)) :
  forall acc k res k',
    sortWithoutIndex_loop keys pstore types ctx ts sType rows acc k = Done (res, k') ->
    (k <= k')%nat /\
    (cancelSeen ctx k k' -> res = failed ErrContext) /\
    (forall e, err res = Some e -> res = failed e).
Proof.
  induction rows as [|row rows IH]; intros acc k res k' H.
  - cbn in H. apply ret_Done in H as [-> ->].
    split; [lia|]. split; [|discriminate].
    intros Hc. now apply cancelSeen_empty in Hc.
  - cbn [sortWithoutIndex_loop] in H.
    apply bind_Done in H as (c & k1 & Hpoll & H).
    unfold poll in Hpoll. injection Hpoll as <- <-.
    destruct (ctx k) eqn:Hk.
    + apply ret_Done in H as [-> ->].
      split; [lia|]. split; [reflexivity|].
      intros e He. now injection He as <-.
    + apply bind_Done in H as ([[tempList vs] e] & k2 & Hsort & H).
      apply sortByValue_cancel in Hsort as [Hle Hseen].
      destruct e as [e|].
      * apply ret_Done in H as [-> ->].
        split; [lia|]. split.
        -- intros Hc. apply cancelSeen_first in Hc; [|exact Hk].
           apply Hseen in Hc. now injection Hc as ->.
        -- intros e' He'. now injection He' as <-.
      * apply bind_Done in H as (tl' & k3 & Hpag & H).
        apply lift_Done in Hpag as [_ ->].
        apply IH in H as (Hle' & Hc' & He'). split; [lia|]. split; [|exact He'].
        intros Hc. apply cancelSeen_first in Hc; [|exact Hk].
        destruct (cancelSeen_split ctx (S k) k2 _ Hc) as [Hc1|Hc2].
        -- apply Hseen in Hc1. discriminate.
        -- now apply Hc'.
Qed.

Lemma sortWithoutIndex_cancel (ctx : Context) (ts : SortMessage) k res k' :
  sortWithoutIndex schema keys pstore types ctx ts k = Done (res, k') ->
  (cancelSeen ctx k k' -> res = failed ErrContext) /\
  (forall e, err res = Some e -> res = failed e).
Proof.
  unfold sortWithoutIndex. intros H.
  apply bind_Done in H as (attr0 & k1 & Hattr & H).
  apply lift_Done in Hattr as [_ ->].
  assert (Hfail : forall e0, ret (failed e0) k = Done (res, k') ->
            (cancelSeen ctx k k' -> res = failed ErrContext) /\
            (forall e, err res = Some e -> res = failed e)).
  { intros e0 Hr. apply ret_Done in Hr as [-> ->]. split.
    - intros Hc. now apply cancelSeen_empty in Hc.
    - intros e He. now injection He as <-. }
  destruct (TypeOf schema attr0) as [sType|e0]; [|now apply (Hfail ErrObjectType)].
  destruct (IsScalar sType); cbn [negb] in H; [|now apply (Hfail ErrObjectType)].
  now apply sortWithoutIndex_loop_cancel in H as (_ & Hc & He).
Qed.

Lemma intersectRow_cancel (ctx : Context) (ts : SortMessage) (scalar : TypeID)
    (key : bytes) (ul : list uid) (il : intersectedList Payload) k r k' :
  intersectRow keys pstore types ctx ts scalar key ul il k = Done (r, k') ->
  (k <= k')%nat /\ (cancelSeen ctx k k' -> r = inr ErrContext).
Proof.
  unfold intersectRow. intros H.
  assert (Hret : forall x, ret x k = Done (r, k') ->
            (k <= k')%nat /\ (cancelSeen ctx k k' -> r = inr ErrContext)).
  { intros x Hr. apply ret_Done in Hr as [-> ->]. split; [lia|].
    intros Hc. now apply cancelSeen_empty in Hc. }
  destruct ((Count ts >? 0) && (len (ulist il) >=? Count ts)); [now apply Hret in H|].
  destruct (offset il >=? len (Uids pstore key ul)); [now apply Hret in H|].
  apply bind_Done in H as ([[result vs] e] & k1 & Hsort & H).
  apply sortByValue_cancel in Hsort as [Hle Hseen].
  destruct e as [e|].
  - apply ret_Done in H as [-> ->]. split; [exact Hle|].
    intros Hc. apply Hseen in Hc. now injection Hc as ->.
  - assert (Hk : k' = k1).
    { match type of H with
      | ?m k1 = _ => assert (Hn : nopoll m) by nopoll_tac
      end.
      exact (Hn _ _ _ H). }
    subst k'. split; [exact Hle|].
    intros Hc. apply Hseen in Hc. discriminate.
Qed.

Lemma intersectRows_cancel (ctx : Context) (ts : SortMessage) (scalar : TypeID)
    (key : bytes) (rows : list (list uid)) :
  forall (out : list (intersectedList Payload)) k out' e k',
    intersectRows keys pstore types ctx ts scalar key rows out k = Done ((out', e), k') ->
    (k <= k')%nat /\ (cancelSeen ctx k k' -> e = Some ErrContext).
Proof.
  induction rows as [|ul rows IH]; intros out k out' e k' H.
  - cbn in H. apply ret_Done in H as [Heq ->]. split; [lia|].
    intros Hc. now apply cancelSeen_empty in Hc.
  - destruct out as [|il out]; [discriminate|].
    cbn [intersectRows] in H.
    apply bind_Done in H as (r & k1 & Hrow & H).
    apply intersectRow_cancel in Hrow as [Hle Hseen].
    destruct r as [il'|e0].
    + apply bind_Done in H as ([out'' e1] & k2 & Hrest & H).
      apply IH in Hrest as [Hle' Hseen'].
      apply ret_Done in H as [Heq ->]. injection Heq as -> ->.
      split; [lia|]. intros Hc.
      destruct (cancelSeen_split ctx k k1 _ Hc) as [Hc1|Hc2].
      * apply Hseen in Hc1. discriminate.
      * now apply Hseen'.
    + apply ret_Done in H as [Heq ->]. injection Heq as -> ->.
      split; [exact Hle|]. intros Hc. apply Hseen in Hc. now injection Hc as ->.
Qed.

Lemma intersectBucket_cancel (ctx : Context) (ts : SortMessage) (token : string)
    (out : list (intersectedList Payload)) k out' e k' :
  intersectBucket schema keys pstore types ctx ts token out k = Done ((out', e), k') ->
  (k <= k')%nat /\ (cancelSeen ctx k k' -> e = ErrContext).
Proof.
  unfold intersectBucket. intros H.
  apply bind_Done in H as (attr & k1 & Hattr & H).
  apply lift_Done in Hattr as [_ ->].
  assert (Hret : forall x, ret x k = Done ((out', e), k') ->
            (k <= k')%nat /\ (cancelSeen ctx k k' -> e = ErrContext)).
  { intros x Hr. apply ret_Done in Hr as [_ ->]. split; [lia|].
    intros Hc. now apply cancelSeen_empty in Hc. }
  destruct (TypeOf schema attr) as [sType|e0]; [|now apply Hret in H].
  destruct (negb (IsScalar sType)); [now apply Hret in H|].
  apply bind_Done in H as ([out1 e1] & k2 & Hrows & H).
  apply intersectRows_cancel in Hrows as [Hle Hseen].
  destruct e1 as [e1|].
  - apply ret_Done in H as [Heq ->]. injection Heq as -> ->.
    split; [exact Hle|]. intros Hc. apply Hseen in Hc. now injection Hc as ->.
  - apply bind_Done in H as (e2 & k3 & Hchk & H).
    apply lift_Done in Hchk as [_ ->].
    apply ret_Done in H as [_ ->].
    split; [exact Hle|]. intros Hc. apply Hseen in Hc. discriminate.
Qed.

Lemma buckets_cancel (ctx : Context) (ts : SortMessage) (indexPrefix : bytes)
    (ks : list bytes) :
  forall (out : list (intersectedList Payload)) k r k',
    buckets schema keys pstore types ctx ts indexPrefix ks out k = Done (r, k') ->
    (k <= k')%nat /\
    (cancelSeen ctx k k' -> r = inr (failed ErrContext)) /\
    (forall res, r = inr res -> exists e, res = failed e).
Proof.
  induction ks as [|key ks IH]; intros out k r k' H.
  - cbn in H. apply ret_Done in H as [-> ->]. split; [lia|]. split; [|discriminate].
    intros Hc. now apply cancelSeen_empty in Hc.
  - cbn [buckets] in H.
    destruct (negb (prefix indexPrefix key)).
    { apply ret_Done in H as [-> ->]. split; [lia|]. split; [|discriminate].
      intros Hc. now apply cancelSeen_empty in Hc. }
    apply bind_Done in H as (c & k1 & Hpoll & H).
    unfold poll in Hpoll. injection Hpoll as <- <-.
    destruct (ctx k) eqn:Hk.
    { apply ret_Done in H as [-> ->]. split; [lia|]. split; [reflexivity|].
      intros res Hres. injection Hres as <-. now exists ErrContext. }
    destruct (Parse keys key) as [pk|].
    2:{ apply lift_Done in H as [H _]. discriminate. }
    apply bind_Done in H as (u & k2 & Hassert & H).
    apply lift_Done in Hassert as [_ ->].
    apply bind_Done in H as ([out1 e] & k3 & Hbucket & H).
    apply intersectBucket_cancel in Hbucket as [Hle Hseen].
    assert (Hfail : ret (inr (failed e)) k3 = Done (r, k') ->
              (S k <= k')%nat /\
              (cancelSeen ctx (S k) k' -> r = inr (failed ErrContext)) /\
              (forall res, r = inr res -> exists e, res = failed e)).
    { intros Hr. apply ret_Done in Hr as [-> ->]. split; [exact Hle|]. split.
      - intros Hc. apply Hseen in Hc. now subst e.
      - intros res Hres. injection Hres as <-. now exists e. }
    assert (Hgoal : (S k <= k')%nat /\
              (cancelSeen ctx (S k) k' -> r = inr (failed ErrContext)) /\
              (forall res, r = inr res -> exists e, res = failed e)).
    { destruct e; try (now apply Hfail).
      - apply IH in H as (Hle' & Hc' & He'). split; [lia|]. split; [|exact He'].
        intros Hc. destruct (cancelSeen_split ctx (S k) k3 _ Hc) as [Hc1|Hc2].
        + apply Hseen in Hc1. discriminate.
        + now apply Hc'.
      - apply ret_Done in H as [-> ->]. split; [exact Hle|]. split; [|discriminate].
        intros Hc. apply Hseen in Hc. discriminate. }
    destruct Hgoal as (Hle' & Hc' & He'). split; [lia|]. split; [|exact He'].
    intros Hc. apply Hc'. now apply cancelSeen_first.
Qed.

Lemma scanIndex_cancel (ctx : Context) (ts : SortMessage) (attr0 : string)
    (desc0 : bool) (tokenizer : Tokenizer) (out : list (intersectedList Payload))
    k res k' :
  scanIndex schema keys pstore types ctx ts attr0 desc0 tokenizer out k = Done (res, k') ->
  (cancelSeen ctx k k' -> res = failed ErrContext) /\
  (forall e, err res = Some e -> res = failed e).
Proof.
  unfold scanIndex. intros H.
  apply bind_Done in H as (r & k1 & Hb & H).
  apply buckets_cancel in Hb as (Hle & Hseen & Hfail).
  destruct r as [out'|res0].
  - apply bind_Done in H as (c & k2 & Hpoll & H).
    unfold poll in Hpoll. injection Hpoll as <- <-.
    destruct (ctx k1) eqn:Hk1; apply ret_Done in H as [-> ->].
    + split; [reflexivity|]. intros e He. now injection He as <-.
    + split; [|discriminate]. intros Hc.
      destruct (cancelSeen_split ctx k k1 _ Hc) as [Hc1|Hc2].
      * apply Hseen in Hc1. discriminate.
      * apply cancelSeen_first in Hc2; [|exact Hk1].
        now apply cancelSeen_empty in Hc2.
  - apply ret_Done in H as [-> ->].
    destruct (Hfail res0 eq_refl) as [e0 ->]. split.
    + intros Hc. apply Hseen in Hc. now injection Hc as ->.
    + intros e He. now injection He as <-.
Qed.

Lemma sortWithIndex_cancel (ctx : Context) (ts : SortMessage) k res k' :
  sortWithIndex schema keys pstore types ctx ts k = Done (res, k') ->
  (cancelSeen ctx k k' -> res = failed ErrContext) /\
  (forall e, err res = Some e -> res = failed e).
Proof.
  unfold sortWithIndex. intros H.
  apply bind_Done in H as (desc0 & k1 & Hdesc & H).
  apply lift_Done in Hdesc as [_ ->].
  apply bind_Done in H as (attr0 & k1 & Hattr & H).
  apply lift_Done in Hattr as [_ ->].
  assert (Hfail : forall e0, ret (failed e0) k = Done (res, k') ->
            (cancelSeen ctx k k' -> res = failed ErrContext) /\
            (forall e, err res = Some e -> res = failed e)).
  { intros e0 Hr. apply ret_Done in Hr as [-> ->]. split.
    - intros Hc. now apply cancelSeen_empty in Hc.
    - intros e He. now injection He as <-. }
  destruct (TypeOf schema attr0) as [typ|e0]; [|now apply (Hfail ErrNotDefined)].
  destruct (negb (IsIndexed schema attr0)); [now apply (Hfail ErrNotIndexed)|].
  destruct (firstSortable (Tokenizers schema attr0)) as [tokenizer|].
  - now apply scanIndex_cancel in H.
  - destruct (TypeID_eqb typ StringID);
      [now apply (Hfail ErrNoExactIndex) | now apply (Hfail ErrNotSortable)].
Qed.

(** C6: an invocation of either scanner, indexed or not, one of whose polls
    finds the context cancelled returns the context's error with the empty
    sort result and no values; and whatever error a scanner returns, it
    returns it with the empty sort result, never with a matrix filled in
    part. *)
Theorem scanners_cancel_empty (ctx : Context) (ts : SortMessage) (k : nat)
    (res : sortresult Payload) (k' : nat) :
  sortWithIndex schema keys pstore types ctx ts k = Done (res, k') \/
  sortWithoutIndex schema keys pstore types ctx ts k = Done (res, k') ->
  (cancelSeen ctx k k' ->
   res = {| reply := Some emptySortResult; vals := []; err := Some ErrContext |}) /\
  (forall e, err res = Some e ->
     reply res = Some emptySortResult /\ vals res = []).
Proof.
  intros [H|H];
    [apply sortWithIndex_cancel in H | apply sortWithoutIndex_cancel in H];
    destruct H as [Hc He]; (split; [exact Hc|]);
    intros e Herr; rewrite (He e Herr); split; reflexivity.
Qed.

End CancellationFacts.

(** ** The preconditions of the indexed scanner *)

Section IndexedFacts.

Context {Payload : Type}.
Variable schema : Schema.
Variable keys : Keys.
Variable pstore : Store Payload.
Variable types : Types Payload.

Lemma firstSortable_none (l : list Tokenizer) :
  firstSortable l = None <-> Forall (fun t => IsSortable t = false) l.
Proof.
  unfold firstSortable. induction l as [|t l IH]; cbn.
  - split; [constructor | reflexivity].
  - destruct (IsSortable t) eqn:Ht.
    + split; [discriminate|]. intros H. inversion H; congruence.
    + rewrite IH. split; [now constructor | now inversion 1].
Qed.

Lemma firstSortable_first (pre post : list Tokenizer) (t : Tokenizer) :
  Forall (fun t => IsSortable t = false) pre -> IsSortable t = true ->
  firstSortable (pre ++ t :: post) = Some t.
Proof.
  unfold firstSortable. induction 1 as [|p pre Hp _ IH]; cbn; intros Ht.
  - now rewrite Ht.
  - rewrite Hp. now apply IH.
Qed.

Lemma firstSortable_some (l : list Tokenizer) (t : Tokenizer) :
  firstSortable l = Some t -> In t l /\ IsSortable t = true.
Proof. unfold firstSortable. intros H. now apply find_some in H. Qed.

(** C9: the indexed scanner fails unless the first attribute is defined,
    indexed and has a sortable tokenizer.  For an undefined attribute the
    error is the schema error; for one that is not indexed, "not indexed";
    when no tokenizer is sortable, a "not sortable" error, which is the
    missing exact index for a string and "is not sortable" for any other
    type; when a tokenizer is sortable, the walk uses the first such in the
    catalog's order.  A result without error therefore has its attribute
    defined, indexed and with a sortable tokenizer, and scalar too, since
    the catalog indexes no object type. *)
Theorem sortWithIndex_preconditions (ctx : Context) (ts : SortMessage)
    (attr0 : string) (desc0 : bool) (k : nat) :
  index (Attr ts) 0 = Done attr0 ->
  index (Desc ts) 0 = Done desc0 ->
  ((exists e, TypeOf schema attr0 = inr e) ->
   sortWithIndex schema keys pstore types ctx ts k = Done (failed ErrNotDefined, k)) /\
  (forall typ, TypeOf schema attr0 = inl typ ->
     (IsIndexed schema attr0 = false ->
      sortWithIndex schema keys pstore types ctx ts k = Done (failed ErrNotIndexed, k) /\
      kindOf ErrNotIndexed = Some NotIndexed) /\
     (IsIndexed schema attr0 = true ->
      Forall (fun t => IsSortable t = false) (Tokenizers schema attr0) ->
      exists e,
        sortWithIndex schema keys pstore types ctx ts k = Done (failed e, k) /\
        kindOf e = Some NotSortable /\
        (typ = StringID -> e = ErrNoExactIndex) /\
        (typ <> StringID -> e = ErrNotSortable)) /\
     (IsIndexed schema attr0 = true ->
      forall pre t post,
        Tokenizers schema attr0 = pre ++ t :: post ->
        Forall (fun t => IsSortable t = false) pre ->
        IsSortable t = true ->
        sortWithIndex schema keys pstore types ctx ts k =
          scanIndex schema keys pstore types ctx ts attr0 desc0 t
            (repeat {| offset := Offset ts; ulist := []; values := [] |}
                    (List.length (UidMatrix ts))) k)) /\
  (forall res k',
     sortWithIndex schema keys pstore types ctx ts k = Done (res, k') ->
     err res = None ->
     exists typ,
       TypeOf schema attr0 = inl typ /\
       IsIndexed schema attr0 = true /\
       (exists t, In t (Tokenizers schema attr0) /\ IsSortable t = true) /\
       ((forall a ty, TypeOf schema a = inl ty -> IsScalar ty = false ->
                      IsIndexed schema a = false) ->
        IsScalar typ = true)).
Proof.
  intros Hattr Hdesc.
  assert (Hstart : sortWithIndex schema keys pstore types ctx ts k =
    match TypeOf schema attr0 with
    | inr _ => ret (failed ErrNotDefined) k
    | inl typ =>
        if negb (IsIndexed schema attr0) then ret (failed ErrNotIndexed) k
        else match firstSortable (Tokenizers schema attr0) with
             | None => if TypeID_eqb typ StringID then ret (failed ErrNoExactIndex) k
                       else ret (failed ErrNotSortable) k
             | Some tokenizer =>
                 scanIndex schema keys pstore types ctx ts attr0 desc0 tokenizer
                   (repeat {| offset := Offset ts; ulist := []; values := [] |}
                           (List.length (UidMatrix ts))) k
             end
    end).
  { unfold sortWithIndex, bind, lift. rewrite Hdesc, Hattr.
    destruct (TypeOf schema attr0) as [typ|]; [|reflexivity].
    destruct (negb (IsIndexed schema attr0)); [reflexivity|].
    destruct (firstSortable (Tokenizers schema attr0)); [reflexivity|].
    destruct (TypeID_eqb typ StringID); reflexivity. }
  split; [|split].
  - intros [e He]. rewrite Hstart, He. reflexivity.
  - intros typ Htyp. rewrite Hstart, Htyp. split; [|split].
    + intros Hidx. rewrite Hidx. split; reflexivity.
    + intros Hidx Hnone. rewrite Hidx. cbn [negb].
      apply firstSortable_none in Hnone. rewrite Hnone.
      destruct typ; cbn [TypeID_eqb];
        (eexists; split; [reflexivity|]; split; [reflexivity|];
         split; [intros; congruence | intros; congruence]).
    + intros Hidx pre t post Htok Hpre Ht. rewrite Hidx. cbn [negb].
      rewrite Htok, (firstSortable_first pre post t Hpre Ht). reflexivity.
  - intros res k' Hrun Herr. rewrite Hstart in Hrun.
    destruct (TypeOf schema attr0) as [typ|e0] eqn:Htyp.
    2:{ apply ret_Done in Hrun as [-> _]. discriminate. }
    exists typ. split; [reflexivity|].
    destruct (IsIndexed schema attr0) eqn:Hidx; cbn [negb] in Hrun.
    2:{ apply ret_Done in Hrun as [-> _]. discriminate. }
    split; [reflexivity|].
    destruct (firstSortable (Tokenizers schema attr0)) as [t|] eqn:Hfs.
    2:{ destruct (TypeID_eqb typ StringID);
          apply ret_Done in Hrun as [-> _]; discriminate. }
    split; [exists t; now apply firstSortable_some|].
    intros Hwf. destruct (IsScalar typ) eqn:Hsc; [reflexivity|].
    rewrite (Hwf attr0 typ Htyp Hsc) in Hidx. discriminate.
Qed.

End IndexedFacts.

(** ** [processSort] *)

Lemma rbind_Done {A B : Type} (m : run A) (f : A -> run B) (b : B) :
  rbind m f = Done b -> exists a, m = Done a /\ f a = Done b.
Proof. destruct m as [a|c]; cbn; [now exists a | discriminate]. Qed.

Section ProcessSortFacts.

Context {Payload : Type}.
Variable schema : Schema.
Variable keys : Keys.
Variable pstore : Store Payload.
Variable types : Types Payload.
Variable cluster : Cluster.

(** The last loop of [processSort] leaves every row with [count]
    identifiers. *)
Lemma multiSortRow_length (ts : SortMessage) dest sortVals ul row :
  multiSortRow types ts dest sortVals ul = Done row ->
  len row = Count ts.
Proof.
  unfold multiSortRow. intros H.
  apply rbind_Done in H as (vs & _ & H).
  destruct (types_Sort types vs ul (Desc ts)) as [sorted e].
  apply rbind_Done in H as (u & Hassert & H).
  unfold assertTrue in Hassert.
  destruct (Z.geb_spec (len sorted) (Count ts)) as [Hge|]; [|discriminate].
  unfold slice in H.
  destruct ((0 <=? 0) && (0 <=? Count ts) && (Count ts <=? len sorted)) eqn:Hb;
    [|discriminate].
  injection H as <-.
  apply andb_prop in Hb as [Hb _]. apply andb_prop in Hb as [_ Hb].
  apply Z.leb_le in Hb.
  unfold len in *. rewrite length_firstn, Z.sub_0_r.
  change (skipn (Z.to_nat 0) sorted) with sorted. lia.
Qed.

Lemma multiSortRows_length (ts : SortMessage) dest sortVals rows :
  forall rows',
    multiSortRows types ts dest sortVals rows = Done rows' ->
    Forall (fun row => len row = Count ts) rows'.
Proof.
  induction rows as [|ul rows IH]; intros rows' H; cbn in H.
  - injection H as <-. constructor.
  - apply rbind_Done in H as (row & Hrow & H).
    apply rbind_Done in H as (rest & Hrest & H).
    injection H as <-. constructor.
    + now apply multiSortRow_length in Hrow.
    + now apply IH.
Qed.

(** A result without the primary values makes the extender panic at its
    first row. *)
Lemma extend_without_values (sch : Schedule) (ts : SortMessage) (row : list uid) rows :
  extend keys types cluster sch ts
    {| reply := Some {| r_UidMatrix := row :: rows |}; vals := []; err := None |}
  = Crash IndexOutOfRange.
Proof. reflexivity. Qed.

Lemma rowSortVals_length dest (sortVals : list (list (Val Payload))) ul :
  forall vs, rowSortVals dest sortVals ul = Done vs ->
             List.length vs = List.length ul.
Proof.
  induction ul as [|u ul IH]; intros vs H; cbn in H.
  - now injection H as <-.
  - apply rbind_Done in H as (x & _ & H).
    apply rbind_Done in H as (v & _ & H).
    apply rbind_Done in H as (vs' & Hvs & H).
    injection H as <-. cbn. f_equal. now apply IH.
Qed.

(** A row with fewer than [count] identifiers fails the assertion of the
    last loop. *)
Lemma multiSortRow_short (ts : SortMessage) dest sortVals ul vs :
  rowSortVals dest sortVals ul = Done vs ->
  len ul < Count ts ->
  multiSortRow types ts dest sortVals ul = Crash AssertionFailed.
Proof.
  intros Hvs Hshort. unfold multiSortRow. rewrite Hvs. cbn [rbind].
  pose proof (types_Sort_length types vs ul (Desc ts) (rowSortVals_length _ _ _ _ Hvs))
    as Hlen.
  destruct (types_Sort types vs ul (Desc ts)) as [sorted e]. cbn [fst] in Hlen.
  unfold assertTrue, len in *. rewrite Hlen.
  destruct (Z.geb_spec (Z.of_nat (List.length ul)) (Count ts)); [lia | reflexivity].
Qed.

(** The non-indexed scanner returns no values, and without error one row
    per row of the request. *)
Lemma sortWithoutIndex_loop_shape (ctx : Context) (ts : SortMessage)
    (sType : TypeID) (rows : list (list uid)) :
  forall acc k res k',
    sortWithoutIndex_loop keys pstore types ctx ts sType rows acc k = Done (res, k') ->
    vals res = [] /\
    (err res = None ->
     exists m, reply res = Some {| r_UidMatrix := acc ++ m |} /\
               List.length m = List.length rows).
Proof.
  induction rows as [|row rows IH]; intros acc k res k' H.
  - cbn in H. apply ret_Done in H as [-> _]. split; [reflexivity|].
    intros _. exists []. now rewrite app_nil_r.
  - cbn [sortWithoutIndex_loop] in H.
    apply bind_Done in H as (c & k1 & _ & H).
    destruct c.
    { apply ret_Done in H as [-> _]. split; [reflexivity | discriminate]. }
    apply bind_Done in H as ([[tempList vs] e] & k2 & _ & H).
    destruct e as [e|].
    { apply ret_Done in H as [-> _]. split; [reflexivity | discriminate]. }
    apply bind_Done in H as (tl' & k3 & _ & H).
    apply IH in H as [Hv Hr]. split; [exact Hv|].
    intros He. destruct (Hr He) as (m & Hm & Hl).
    exists (tl' :: m). rewrite <- app_assoc in Hm. split; [exact Hm | cbn; lia].
Qed.

Lemma sortWithoutIndex_shape (ctx : Context) (ts : SortMessage) k res k' :
  sortWithoutIndex schema keys pstore types ctx ts k = Done (res, k') ->
  vals res = [] /\
  (err res = None ->
   exists m, reply res = Some {| r_UidMatrix := m |} /\
             List.length m = List.length (UidMatrix ts)).
Proof.
  unfold sortWithoutIndex. intros H.
  apply bind_Done in H as (attr0 & k1 & _ & H).
  destruct (TypeOf schema attr0) as [sType|e0].
  2:{ apply ret_Done in H as [-> _]. split; [reflexivity | discriminate]. }
  destruct (negb (IsScalar sType)).
  { apply ret_Done in H as [-> _]. split; [reflexivity | discriminate]. }
  now apply sortWithoutIndex_loop_shape in H.
Qed.

(** Whenever the racer goes on with a result of the non-indexed scanner
    that has no error, on more than one attribute and at least one row,
    [processSort] panics in the extender. *)
Lemma processSort_without_values (sch : Schedule) (ts : SortMessage)
    (attr0 : string) (res : sortresult Payload) :
  0 <= Count ts ->
  index (Attr ts) 0 = Done attr0 ->
  IsList schema attr0 = false ->
  1 < len (Attr ts) ->
  UidMatrix ts <> [] ->
  race schema keys pstore types sch ts = Done res ->
  runScanner (sortWithoutIndex schema keys pstore types (cctxWithout sch) ts) = Done res ->
  err res = None ->
  processSort schema keys pstore types cluster sch ts = Crash IndexOutOfRange.
Proof.
  intros Hcount Hattr Hlist Hmulti Hrows Hrace Hscan Herr.
  unfold processSort.
  destruct (Z.ltb_spec (Count ts) 0); [lia|].
  rewrite Hattr. cbn [rbind]. rewrite Hlist, Hrace. cbn [rbind].
  destruct (Z.gtb_spec (len (Attr ts)) 1); [|lia].
  rewrite Herr. cbn [negb orb isErr].
  unfold runScanner in Hscan.
  destruct (sortWithoutIndex schema keys pstore types (cctxWithout sch) ts O)
    as [[res' k']|c] eqn:Hrun; [|discriminate].
  injection Hscan as ->.
  apply sortWithoutIndex_shape in Hrun as [Hvals Hreply].
  destruct (Hreply Herr) as (m & Hm & Hlen).
  destruct res as [rp vs e]. cbn in *. subst rp vs e.
  destruct m as [|row m].
  - destruct (UidMatrix ts); [contradiction | discriminate].
  - reflexivity.
Qed.

(** What [processSort] returns without error, on more than one attribute,
    went through the last loop of the extender. *)
Lemma processSort_multi_rows (sch : Schedule) (ts : SortMessage) rep :
  1 < len (Attr ts) ->
  processSort schema keys pstore types cluster sch ts = Done (rep, None) ->
  exists rows, rep = Some {| r_UidMatrix := rows |} /\
               Forall (fun row => len row = Count ts) rows.
Proof.
  intros Hmulti. unfold processSort.
  destruct (Count ts <? 0); [discriminate|].
  intros H. apply rbind_Done in H as (attr0 & _ & H).
  destruct (IsList schema attr0); [discriminate|].
  apply rbind_Done in H as (res & _ & H).
  destruct (Z.gtb_spec (len (Attr ts)) 1) as [_|]; [|lia].
  cbn [negb orb] in H.
  destruct (err res) as [e|]; cbn [isErr] in H; [discriminate|].
  unfold extend in H. destruct (reply res) as [rp|]; [|discriminate].
  apply rbind_Done in H as (sv & _ & H).
  apply rbind_Done in H as (och & _ & H).
  apply rbind_Done in H as (got & _ & H).
  destruct got as [[[e|] sv']|e]; try discriminate.
  apply rbind_Done in H as (rows & Hrows & H).
  injection H as <-. exists rows. split; [reflexivity|].
  now apply multiSortRows_length in Hrows.
Qed.

Lemma paginate_all (ts : SortMessage) (dest : list uid) :
  Count ts = 0 -> 0 <= Offset ts <= len dest ->
  paginate ts dest = Done (skipn (Z.to_nat (Offset ts)) dest).
Proof.
  intros Hc [H0 Hn]. unfold paginate, PageRange. rewrite Hc. cbn [Z.eqb].
  rewrite Z.min_l by exact Hn. unfold slice.
  destruct (Z.leb_spec 0 (Offset ts)); [|lia].
  destruct (Z.leb_spec (Offset ts) (len dest)); [|lia].
  rewrite Z.leb_refl. cbn [andb]. f_equal.
  apply firstn_all2. rewrite length_skipn. unfold len in *. lia.
Qed.

(** C10: a request on more than one attribute with a count of zero that
    goes through the extender gets every row back empty: the last loop
    slices each row to its first [count] identifiers, whatever [count] is.
    In the pagination helper a count of zero means all: [paginate] keeps
    the whole row from the offset on. *)
Theorem processSort_count_zero (sch : Schedule) (ts : SortMessage)
    (rep : option SortResult) :
  1 < len (Attr ts) ->
  Count ts = 0 ->
  processSort schema keys pstore types cluster sch ts = Done (rep, None) ->
  (exists rows, rep = Some {| r_UidMatrix := rows |} /\
                Forall (fun row => row = []) rows) /\
  (forall dest, 0 <= Offset ts <= len dest ->
                paginate ts dest = Done (skipn (Z.to_nat (Offset ts)) dest)).
Proof.
  intros Hmulti Hcount Hrun. split.
  - destruct (processSort_multi_rows sch ts rep Hmulti Hrun) as (rows & -> & Hrows).
    exists rows. split; [reflexivity|].
    eapply Forall_impl; [|exact Hrows].
    intros row Hlen. rewrite Hcount in Hlen. unfold len in Hlen.
    destruct row; [reflexivity | cbn in Hlen; lia].
  - intros dest Hoff. now apply paginate_all.
Qed.

(** The scanners on an attribute that the catalog does not define, or
    defines as an object and so does not index. *)
Lemma sortWithoutIndex_refused (ctx : Context) (ts : SortMessage) (attr0 : string) :
  index (Attr ts) 0 = Done attr0 ->
  (exists e, TypeOf schema attr0 = inr e) \/
  (exists typ, TypeOf schema attr0 = inl typ /\ IsScalar typ = false) ->
  runScanner (sortWithoutIndex schema keys pstore types ctx ts) =
    Done (failed ErrObjectType).
Proof.
  intros Hattr Hty. unfold runScanner, sortWithoutIndex, bind, lift. rewrite Hattr.
  destruct Hty as [[e ->]|(typ & -> & ->)]; reflexivity.
Qed.

Lemma sortWithIndex_refused (ctx : Context) (ts : SortMessage) (attr0 : string)
    (desc0 : bool) :
  index (Attr ts) 0 = Done attr0 ->
  index (Desc ts) 0 = Done desc0 ->
  ((exists e, TypeOf schema attr0 = inr e) ->
   runScanner (sortWithIndex schema keys pstore types ctx ts) =
     Done (failed ErrNotDefined)) /\
  ((exists typ, TypeOf schema attr0 = inl typ) -> IsIndexed schema attr0 = false ->
   runScanner (sortWithIndex schema keys pstore types ctx ts) =
     Done (failed ErrNotIndexed)).
Proof.
  intros Hattr Hdesc. unfold runScanner, sortWithIndex, bind, lift.
  rewrite Hattr, Hdesc. split.
  - intros [e ->]. reflexivity.
  - intros [typ ->] ->. reflexivity.
Qed.

(** C8, as the code has it: [processSort] returns an error and no matrix
    when the count is negative, when the first attribute is a list, and when
    the first attribute is undefined or an object.  The error is of the
    invalid-request kind in the first two cases.  In the last one both
    scanners fail and the error is that of the result the racer receives
    second: "cannot sort ... of type object" when it is the non-indexed
    scanner's, the context's error when the context was cancelled before
    that scanner started, and the indexed scanner's own error, "not defined
    in schema" or "is not indexed", when the non-indexed result came
    first. *)
Theorem processSort_refuses (sch : Schedule) (ts : SortMessage) :
  (Count ts < 0 ->
   processSort schema keys pstore types cluster sch ts =
     Done (None, Some ErrNegativeCount) /\
   kindOf ErrNegativeCount = Some InvalidRequest) /\
  (0 <= Count ts ->
   forall attr0, index (Attr ts) 0 = Done attr0 ->
     (IsList schema attr0 = true ->
      processSort schema keys pstore types cluster sch ts =
        Done (None, Some ErrListType) /\
      kindOf ErrListType = Some InvalidRequest) /\
     (IsList schema attr0 = false ->
      forall desc0, index (Desc ts) 0 = Done desc0 ->
      forall indexedError,
        ((exists e, TypeOf schema attr0 = inr e) /\ indexedError = ErrNotDefined) \/
        ((exists typ, TypeOf schema attr0 = inl typ /\ IsScalar typ = false) /\
         IsIndexed schema attr0 = false /\ indexedError = ErrNotIndexed) ->
        processSort schema keys pstore types cluster sch ts =
          Done (if indexedFirst sch
                then if timerFirst sch
                     then (Some emptySortResult, Some ErrObjectType)
                     else (None, Some ErrContext)
                else (Some emptySortResult, Some indexedError)) /\
        kindOf ErrObjectType = Some InvalidRequest /\
        kindOf ErrNotDefined = Some InvalidRequest /\
        kindOf ErrNotIndexed = Some NotIndexed /\
        kindOf ErrContext = Some Cancelled)).
Proof.
  split.
  - intros Hneg. split; [|reflexivity]. unfold processSort.
    destruct (Z.ltb_spec (Count ts) 0); [reflexivity | lia].
  - intros Hpos attr0 Hattr. unfold processSort.
    destruct (Z.ltb_spec (Count ts) 0); [lia|]. rewrite Hattr. cbn [rbind].
    split.
    + intros ->. split; reflexivity.
    + intros -> desc0 Hdesc indexedError Hty.
      split; [|repeat split].
      assert (Hwithout : runScanner (sortWithoutIndex schema keys pstore types
                                       (cctxWithout sch) ts) = Done (failed ErrObjectType)).
      { apply (sortWithoutIndex_refused _ ts attr0 Hattr).
        destruct Hty as [[Hu _]|[Ho _]]; [now left | now right]. }
      assert (Hwith : runScanner (sortWithIndex schema keys pstore types
                                    (cctxWith sch) ts) = Done (failed indexedError)).
      { destruct (sortWithIndex_refused (cctxWith sch) ts attr0 desc0 Hattr Hdesc)
          as [Hu Ho].
        destruct Hty as [[Hty ->]|[(typ & Hty & _) [Hidx ->]]].
        - now apply Hu.
        - apply Ho; [now exists typ | exact Hidx]. }
      unfold race. rewrite Hwithout, Hwith.
      destruct (timerFirst sch), (indexedFirst sch); cbn;
        destruct (len (Attr ts) >? 1); reflexivity.
Qed.

End ProcessSortFacts.

(** ** The RPC handler *)

Section HandlerFacts.

Context {Payload : Type}.
Variable schema : Schema.
Variable keys : Keys.
Variable pstore : Store Payload.
Variable types : Types Payload.
Variable cluster : Cluster.

(** C5, as the code has it: when the group of the first attribute is not
    served by this server, the handler returns nothing to its caller: the
    assertion ["Request sent to wrong server."] fails and ends the run.
    Only a context already cancelled on entry is answered before, with the
    context's error and the empty result. *)
Theorem Sort_wrong_server (ctx : Context) (sch : Schedule) (s : SortMessage)
    (attr0 : string) :
  index (Attr s) 0 = Done attr0 ->
  ServesGroup cluster (BelongsTo cluster attr0) = false ->
  Sort schema keys pstore types cluster ctx sch s =
    if ctx O then Done (Some emptySortResult, Some ErrContext)
    else Crash AssertionFailed.
Proof.
  intros Hattr Hserve. unfold Sort. rewrite Hattr. cbn [rbind].
  rewrite Hserve. reflexivity.
Qed.

End HandlerFacts.

(** ** The bucket intersector *)

Lemma slice_suffix {A : Type} (s : list A) (lo : Z) :
  0 <= lo <= len s -> slice s lo (len s) = Done (skipn (Z.to_nat lo) s).
Proof.
  intros [H0 Hn]. unfold slice.
  destruct (Z.leb_spec 0 lo); [|lia].
  destruct (Z.leb_spec lo (len s)); [|lia].
  rewrite Z.leb_refl. cbn [andb]. f_equal.
  apply firstn_all2. rewrite length_skipn. unfold len in *. lia.
Qed.

Lemma len_skipn {A : Type} (s : list A) (lo : Z) :
  0 <= lo <= len s -> len (skipn (Z.to_nat lo) s) = len s - lo.
Proof. intros H. unfold len in *. rewrite length_skipn. lia. Qed.

Section IntersectorFacts.

Context {Payload : Type}.
Variable schema : Schema.
Variable keys : Keys.
Variable pstore : Store Payload.
Variable types : Types Payload.

(** On more than one attribute, the values [sortByValue] returns without
    error are as many as the identifiers it leaves. *)
Lemma sortByValue_vals_length (ctx : Context) (ts : SortMessage) (ul : list uid)
    (typ : TypeID) k out vs k' :
  sortByValue keys pstore types ctx ts ul typ k = Done ((out, vs, None), k') ->
  multi ts = true -> len vs = len out.
Proof.
  unfold sortByValue. intros H Hmulti.
  apply bind_Done in H as (r & k1 & _ & H).
  destruct r as [[[uids values] msv]|[vals0 e0]].
  - apply bind_Done in H as (desc0 & k2 & _ & H).
    destruct (types_Sort types values uids [desc0]) as [sorted e].
    apply bind_Done in H as (u & k3 & Hassert & H).
    apply lift_Done in Hassert as [Hassert _]. rewrite Hmulti in Hassert.
    apply ret_Done in H as [Heq _]. injection Heq as Ho Hv He. subst out vs.
    unfold assertTrue in Hassert.
    destruct (Z.eqb_spec (len sorted) (len msv)); [lia | discriminate].
  - apply ret_Done in H as [Heq _]. discriminate.
Qed.



Lemma multi_not_single (ts : SortMessage) :
  multi ts = true -> (len (Attr ts) =? 1) = false.
Proof.
  unfold multi. destruct (Z.gtb_spec (len (Attr ts)) 1); [|discriminate].
  intros _. apply Z.eqb_neq. lia.
Qed.

(** The pagination window of one row in one bucket, for a row that is not
    skipped, when the value sort leaves at least [offset] hits: the first
    [offset] sorted hits are dropped, the offset is reset, and the hits
    appended are all the others, or with a single attribute and a positive
    count the first [count - |acc|] of them. *)
Lemma intersectRow_window (ctx : Context) (ts : SortMessage) (scalar : TypeID)
    (key : bytes) (ul : list uid) (il : intersectedList Payload) (k : nat)
    (sorted : list uid) (vs : list (Val Payload)) (k1 : nat) :
  (Count ts >? 0) && (len (ulist il) >=? Count ts) = false ->
  offset il < len (Uids pstore key ul) ->
  sortByValue keys pstore types ctx ts (Uids pstore key ul) scalar k =
    Done ((sorted, vs, None), k1) ->
  offset il <= len sorted ->
  let off := Z.to_nat (offset il) in
  let n := if (Count ts >? 0) && (len (Attr ts) =? 1)
           then Z.min (len (skipn off sorted)) (Count ts - len (ulist il))
           else len (skipn off sorted) in
  intersectRow keys pstore types ctx ts scalar key ul il k =
    Done (inl {| offset := Z.min 0 (offset il);
                 ulist := ulist il ++ firstn (Z.to_nat n) (skipn off sorted);
                 values := if multi ts
                           then values il ++ firstn (Z.to_nat n) (skipn off vs)
                           else values il |}, k1).
Proof.
  intros Hgate Hoff Hsort Hle off n.
  assert (Hn : 0 <= n <= len (skipn off sorted)).
  { subst n. pose proof (len_nonneg (skipn off sorted)).
    revert Hgate.
    destruct (Z.gtb_spec (Count ts) 0) as [Hc|]; cbn [andb]; intros Hgate; [|lia].
    destruct (len (Attr ts) =? 1); [|lia].
    destruct (Z.geb_spec (len (ulist il)) (Count ts)); [discriminate|]. lia. }
  assert (Hslack : forall a b : Z, (if a <? b then a else b) = Z.min b a)
    by (intros a b; destruct (Z.ltb_spec a b); lia).
  unfold intersectRow. rewrite Hgate.
  destruct (Z.geb_spec (offset il) (len (Uids pstore key ul))); [lia|].
  unfold bind at 1. rewrite Hsort.
  assert (Hvs : multi ts = true -> len vs = len sorted)
    by (intros Hm; exact (sortByValue_vals_length _ _ _ _ _ _ _ _ Hsort Hm)).
  destruct (Z.gtb_spec (offset il) 0) as [Hpos|Hneg].
  - (* Apply the offset. *)
    assert (Hmin : Z.min 0 (offset il) = 0) by lia. rewrite Hmin.
    unfold bind at 1. unfold bind at 1. unfold lift at 1.
    rewrite (slice_suffix sorted (offset il)) by lia. fold off.
    destruct (multi ts) eqn:Hm.
    + subst n. rewrite (multi_not_single ts Hm), andb_false_r in *.
      unfold bind at 1, lift at 1.
      rewrite <- (Hvs eq_refl), (slice_suffix vs (offset il)) by (rewrite Hvs; auto; lia).
      fold off. unfold ret at 1. unfold bind at 1, lift at 1.
      rewrite slice_prefix by lia. unfold bind at 1, bind at 1, lift at 1.
      assert (Hlv : len (skipn off vs) = len (skipn off sorted)).
      { subst off. rewrite !len_skipn by (rewrite ?Hvs; auto; lia).
        rewrite Hvs; auto. }
      rewrite slice_prefix by (rewrite Hlv; lia). reflexivity.
    + unfold ret at 1. unfold ret at 1.
      unfold bind at 1, lift at 1.
      rewrite Hslack. fold n. rewrite slice_prefix by lia. reflexivity.
  - assert (Hmin : Z.min 0 (offset il) = offset il) by lia. rewrite Hmin.
    assert (Hoff0 : Z.to_nat (offset il) = O) by lia.
    subst n off. rewrite Hoff0 in *. cbn [skipn] in *.
    match type of Hn with 0 <= ?e <= _ => set (n := e) in * end.
    unfold bind at 1, ret at 1.
    unfold bind at 1, lift at 1. rewrite Hslack. fold n.
    rewrite slice_prefix by lia.
    destruct (multi ts) eqn:Hm.
    + unfold bind at 1, bind at 1, lift at 1.
      rewrite slice_prefix by (rewrite Hvs; auto; lia). reflexivity.
    + reflexivity.
Qed.

(** When the value sort leaves fewer hits than the offset, the re-slicing
    [result.Uids[il.offset:n]] panics. *)
Lemma intersectRow_past_sorted (ctx : Context) (ts : SortMessage) (scalar : TypeID)
    (key : bytes) (ul : list uid) (il : intersectedList Payload) (k : nat)
    (sorted : list uid) (vs : list (Val Payload)) (k1 : nat) :
  (Count ts >? 0) && (len (ulist il) >=? Count ts) = false ->
  offset il < len (Uids pstore key ul) ->
  sortByValue keys pstore types ctx ts (Uids pstore key ul) scalar k =
    Done ((sorted, vs, None), k1) ->
  len sorted < offset il ->
  intersectRow keys pstore types ctx ts scalar key ul il k = Crash SliceBounds.
Proof.
  intros Hgate Hoff Hsort Hpast.
  pose proof (len_nonneg sorted) as Hnn.
  unfold intersectRow. rewrite Hgate.
  destruct (Z.geb_spec (offset il) (len (Uids pstore key ul))); [lia|].
  unfold bind at 1. rewrite Hsort.
  destruct (Z.gtb_spec (offset il) 0); [|lia].
  unfold bind at 1, bind at 1, lift at 1, slice.
  destruct (Z.leb_spec (offset il) (len sorted)); [lia|].
  rewrite andb_false_r. reflexivity.
Qed.





End IntersectorFacts.

(** ** Runs on the small database *)

Module DbFacts.

Import Db.
Local Open Scope string_scope.

(** The first scenario of the spec's section 8: ages ascending, three of
    four identifiers, the tie between 2 and 4 in the order of the index. *)
Example processSort_age_ascending :
  processSort schema keys pstore types cluster (usual []) byAge
  = Done (Some {| r_UidMatrix := [[2; 4; 3]%N] |}, None).
Proof. vm_compute. reflexivity. Qed.

(** Descending, with an offset, by the non-indexed scanner: [nick] has no
    index, so the indexed scanner fails and the racer takes the other
    result. *)
Example processSort_nick_descending :
  processSort schema keys pstore types cluster (usual []) byNick
  = Done (Some {| r_UidMatrix := [[2; 1]%N] |}, None).
Proof. vm_compute. reflexivity. Qed.

(** C1: a request on two attributes whose first has no index.  The indexed
    scanner fails, the result of the non-indexed scanner is the first
    without error, and [processSort] does not return it: it goes on into the
    extender, which reads the values of row 0 in a result that carries
    none, and panics. *)
Theorem processSort_nonindexed_multi :
  multi byNickThenAge = true /\
  runScanner (sortWithIndex schema keys pstore types background byNickThenAge)
    = Done (failed ErrNotIndexed) /\
  race schema keys pstore types (usual [1]) byNickThenAge
    = runScanner (sortWithoutIndex schema keys pstore types background byNickThenAge) /\
  race schema keys pstore types (usual [1]) byNickThenAge
    = Done {| reply := Some {| r_UidMatrix := [[1; 2]%N] |}; vals := []; err := None |} /\
  processSort schema keys pstore types cluster (usual [1]) byNickThenAge
    = Crash IndexOutOfRange.
Proof. repeat split; vm_compute; reflexivity. Qed.


(** C3: the bucket of the exact name "a" holds identifiers 1, 2 and 3 of
    the row, more than the offset of 2, so the row is sorted by value; only
    identifier 1 has a French name, the sort leaves one hit, and dropping
    the first two, [result.Uids[2:1]], panics. *)
Theorem intersectBucket_offset_past_sorted :
  Uids pstore (IndexKey keys "name" (nameTerm "a")) [1; 2; 3]%N = [1; 2; 3]%N /\
  sortByValue keys pstore types background byFrenchName [1; 2; 3]%N StringID 0%nat
    = Done (([1%N], [], None), 3%nat) /\
  intersectBucket schema keys pstore types background byFrenchName
      (nameTerm "a") [fresh 2] 0%nat
    = Crash SliceBounds /\
  processSort schema keys pstore types cluster (usual []) byFrenchName
    = Crash SliceBounds.
Proof. repeat split; vm_compute; reflexivity. Qed.

(** C4: two attributes, a row of two identifiers, a count of five.  The
    indexed scanner walks the whole key range and returns the row with its
    two identifiers, fewer than the count, and the assertion before the
    truncation fails. *)
Theorem processSort_short_row :
  race schema keys pstore types (usual [1]) (byAgeThenNick [[1; 2]%N] 5)
    = runScanner (sortWithIndex schema keys pstore types background
                    (byAgeThenNick [[1; 2]%N] 5)) /\
  race schema keys pstore types (usual [1]) (byAgeThenNick [[1; 2]%N] 5)
    = Done {| reply := Some {| r_UidMatrix := [[2; 1]%N] |};
              vals := [[ {| Tid := IntID; Value := Some 10%Z |};
                         {| Tid := IntID; Value := Some 30%Z |} ]];
              err := None |} /\
  processSort schema keys pstore types cluster (usual [1]) (byAgeThenNick [[1; 2]%N] 5)
    = Crash AssertionFailed.
Proof. repeat split; vm_compute; reflexivity. Qed.

(** C5 fails on a server that does not serve the group of [age]: the
    handler returns no error to its caller, the run ends in the failed
    assertion. *)
Lemma Sort_wrong_server_counterexample :
  ServesGroup elsewhere (BelongsTo elsewhere "age") = false /\
  Sort schema keys pstore types elsewhere background (usual []) byAge
    = Crash AssertionFailed /\
  ~ (exists rep e,
       Sort schema keys pstore types elsewhere background (usual []) byAge
         = Done (rep, Some e)).
Proof.
  repeat split; try (vm_compute; reflexivity).
  intros (rep & e & H). vm_compute in H. discriminate.
Qed.

(** C8 fails on the object attribute [friend] when the result of the
    non-indexed scanner is the first on the channel: the error returned is
    the indexed scanner's "is not indexed". *)
Lemma processSort_object_counterexample :
  TypeOf schema "friend" = inl UidID /\
  IsScalar UidID = false /\
  processSort schema keys pstore types cluster (withoutFirst []) byFriend
    = Done (Some emptySortResult, Some ErrNotIndexed) /\
  ~ (exists rep e,
       processSort schema keys pstore types cluster (withoutFirst []) byFriend
         = Done (rep, Some e) /\
       kindOf e = Some InvalidRequest).
Proof.
  repeat split; try (vm_compute; reflexivity).
  intros (rep & e & H & Hkind). vm_compute in H.
  injection H as _ <-. discriminate.
Qed.

(** The theorems above, at work on the database. *)


Lemma scanners_cancel_empty_witness :
  sortWithIndex schema keys pstore types cancelled byAge 0%nat
    = Done (failed ErrContext, 1%nat) /\
  cancelSeen cancelled 0 1 /\
  @failed Z ErrContext
    = {| reply := Some emptySortResult; vals := []; err := Some ErrContext |}.
Proof.
  assert (Hrun : sortWithIndex schema keys pstore types cancelled byAge 0%nat
                 = Done (failed ErrContext, 1%nat)) by (vm_compute; reflexivity).
  assert (Hseen : cancelSeen cancelled 0 1)
    by (exists 0%nat; split; [lia | reflexivity]).
  split; [exact Hrun|]. split; [exact Hseen|].
  exact (proj1 (scanners_cancel_empty schema keys pstore types cancelled byAge
                  0%nat (failed ErrContext) 1%nat (or_introl Hrun)) Hseen).
Defined.

Lemma sortWithIndex_preconditions_witness :
  sortWithIndex schema keys pstore types background byNick 0%nat
    = Done (failed ErrNotIndexed, 0%nat) /\
  kindOf ErrNotIndexed = Some NotIndexed.
Proof.
  exact (proj1 (proj1 (proj2 (sortWithIndex_preconditions schema keys pstore types
                                background byNick "nick" true 0%nat
                                eq_refl eq_refl))
                 StringID eq_refl) eq_refl).
Defined.

Lemma processSort_count_zero_witness :
  exists rows,
    Some {| r_UidMatrix := [[]] |} = Some {| r_UidMatrix := rows |} /\
    Forall (fun row : list uid => row = []) rows.
Proof.
  apply (processSort_count_zero schema keys pstore types cluster (usual [1])
           (byAgeThenNick [[1; 2; 4]%N] 0)
           (Some {| r_UidMatrix := [[]] |})).
  - reflexivity.
  - reflexivity.
  - vm_compute. reflexivity.
Defined.

Lemma processSort_refuses_witness :
  processSort schema keys pstore types cluster (usual []) byFriend
    = Done (Some emptySortResult, Some ErrObjectType).
Proof.
  refine (proj1 (proj2 (proj2 (processSort_refuses schema keys pstore types cluster
                                 (usual []) byFriend) _ "friend" eq_refl)
                   eq_refl false eq_refl ErrNotIndexed _)).
  - cbn. lia.
  - right. split; [exists UidID; split; reflexivity|]. split; reflexivity.
Defined.

Lemma Sort_wrong_server_witness :
  Sort schema keys pstore types elsewhere background (usual []) byAge
    = Crash AssertionFailed.
Proof.
  exact (Sort_wrong_server schema keys pstore types elsewhere background (usual [])
           byAge "age" eq_refl eq_refl).
Defined.


End DbFacts.

(** * Further properties *)

(** ** [destUids] and the lookups in it *)

Lemma insertUid_In (u : uid) (l : list uid) (x : uid) :
  In x (insertUid u l) <-> x = u \/ In x l.
Proof.
  induction l as [|y l IH]; cbn.
  - intuition.
  - destruct (N.ltb_spec u y); [cbn; intuition|].
    destruct (N.eqb_spec u y) as [->|]; cbn; [intuition|].
    rewrite IH. intuition.
Qed.

Lemma insertUid_HdRel (a u : uid) (l : list uid) :
  (a < u)%N -> HdRel N.lt a l -> HdRel N.lt a (insertUid u l).
Proof.
  intros Hau Hl. destruct l as [|y l]; cbn.
  - now constructor.
  - destruct (N.ltb_spec u y); [now constructor|].
    destruct (N.eqb_spec u y); [exact Hl|].
    constructor. now inversion Hl.
Qed.

Lemma insertUid_Sorted (u : uid) (l : list uid) :
  Sorted N.lt l -> Sorted N.lt (insertUid u l).
Proof.
  induction l as [|y l IH]; cbn; intros Hs.
  - repeat constructor.
  - destruct (N.ltb_spec u y) as [Hlt|Hge].
    + constructor; [exact Hs | now constructor].
    + destruct (N.eqb_spec u y) as [|Hne]; [exact Hs|].
      inversion Hs as [|? ? Hl Hhd]; subst.
      constructor; [now apply IH|].
      apply insertUid_HdRel; [lia | exact Hhd].
Qed.

Lemma Sorted_lt_NoDup (l : list uid) : Sorted N.lt l -> NoDup l.
Proof.
  intros Hs. apply Sorted_StronglySorted in Hs; [|intros x y z; apply N.lt_trans].
  induction Hs as [|a l _ IH Hall]; constructor; [|exact IH].
  intros Hin. rewrite Forall_forall in Hall. specialize (Hall a Hin). lia.
Qed.

Lemma destUids_In (uidMatrix : list (list uid)) (u : uid) :
  In u (destUids uidMatrix) <-> exists row, In row uidMatrix /\ In u row.
Proof.
  unfold destUids. rewrite <- in_concat.
  induction (List.concat uidMatrix) as [|x l IH]; cbn; [tauto|].
  rewrite insertUid_In, IH. intuition.
Qed.

(** X1: [destUids] returns the identifiers of the rows, each once, in
    strictly ascending order. *)
Theorem destUids_sorted_union (uidMatrix : list (list uid)) :
  Sorted N.lt (destUids uidMatrix) /\
  NoDup (destUids uidMatrix) /\
  (forall u, In u (destUids uidMatrix) <->
             exists row, In row uidMatrix /\ In u row).
Proof.
  assert (Hs : Sorted N.lt (destUids uidMatrix)).
  { unfold destUids. induction (List.concat uidMatrix) as [|u l IH]; cbn.
    - constructor.
    - now apply insertUid_Sorted. }
  split; [exact Hs|]. split; [now apply Sorted_lt_NoDup|].
  intros u. apply destUids_In.
Qed.

Lemma IndexOf_from_In (l : list uid) (u : uid) :
  In u l ->
  forall i, i <= IndexOf_from i l u < i + len l /\
            nth_error l (Z.to_nat (IndexOf_from i l u - i)) = Some u.
Proof.
  induction l as [|x l IH]; intros Hin i; [contradiction|].
  cbn [IndexOf_from]. unfold len. cbn [List.length].
  destruct (N.eqb_spec x u) as [->|Hne].
  - rewrite Z.sub_diag. split; [lia | reflexivity].
  - destruct Hin as [->|Hin]; [contradiction|].
    destruct (IH Hin (i + 1)) as [Hr Hn]. unfold len in Hr. split; [lia|].
    replace (Z.to_nat (IndexOf_from (i + 1) l u - i))
      with (S (Z.to_nat (IndexOf_from (i + 1) l u - (i + 1)))) by lia.
    exact Hn.
Qed.

Lemma IndexOf_found (l : list uid) (u : uid) :
  In u l -> 0 <= IndexOf l u < len l /\ index l (IndexOf l u) = Done u.
Proof.
  intros Hin. destruct (IndexOf_from_In l u Hin 0) as [Hr Hn].
  unfold IndexOf. split; [lia|]. unfold index.
  destruct (Z.ltb_spec (IndexOf_from 0 l u) 0); [lia|].
  rewrite Z.sub_0_r in Hn. now rewrite Hn.
Qed.

Section ExtenderLookups.

Context {Payload : Type}.

(** X2: The values of a row in the last loop of [processSort]: for a row of the
    matrix [destUids] was computed from, every identifier is found in
    [destUids], so the assertion [idx >= 0] holds and the read of
    [sortVals[idx]] is in range; the loop collects one vector of values per
    identifier, the one at the index of the identifier. *)
Theorem rowSortVals_total (uidMatrix : list (list uid))
    (sortVals : list (list (Val Payload))) (ul : list uid) :
  List.length sortVals = List.length (destUids uidMatrix) ->
  In ul uidMatrix ->
  exists vs,
    rowSortVals (destUids uidMatrix) sortVals ul = Done vs /\
    Forall2 (fun u v =>
               0 <= IndexOf (destUids uidMatrix) u /\
               index sortVals (IndexOf (destUids uidMatrix) u) = Done v)
            ul vs.
Proof.
  intros Hlen Hrow.
  assert (Hin : forall u, In u ul -> In u (destUids uidMatrix)).
  { intros u Hu. apply destUids_In. now exists ul. }
  clear Hrow. induction ul as [|u ul IH].
  - exists []. split; [reflexivity | constructor].
  - destruct IH as (vs & Hvs & Hall); [intros x Hx; apply Hin; now right|].
    destruct (IndexOf_found _ u (Hin u (or_introl eq_refl))) as [Hr _].
    assert (Hv : exists v, index sortVals (IndexOf (destUids uidMatrix) u) = Done v).
    { unfold index. destruct (Z.ltb_spec (IndexOf (destUids uidMatrix) u) 0); [lia|].
      destruct (nth_error sortVals (Z.to_nat (IndexOf (destUids uidMatrix) u)))
        as [v|] eqn:Hn; [now exists v|].
      apply nth_error_None in Hn. unfold len in Hr. lia. }
    destruct Hv as [v Hv]. exists (v :: vs). split.
    + cbn [rowSortVals]. unfold assertTrue.
      destruct (Z.geb_spec (IndexOf (destUids uidMatrix) u) 0); [|lia].
      cbn [rbind]. rewrite Hv. cbn [rbind]. rewrite Hvs. reflexivity.
    + constructor; [split; [lia | exact Hv] | exact Hall].
Qed.

End ExtenderLookups.

(** ** More on the row sorter *)

Section RowSorterMore.

Context {Payload : Type}.
Variable keys : Keys.
Variable pstore : Store Payload.
Variable types : Types Payload.

Local Abbreviation valuesOf attr langs typ row :=
  (flat_map (fun u => match fetchValue keys pstore types u attr langs typ with
                      | inl v => [v]
                      | inr _ => []
                      end) row).

(** The three slices at the end of the loop of [sortByValue]. *)
Lemma sortByValue_loop_end (ctx : Context) (ts : SortMessage) (typ : TypeID)
    (attr0 : string) (rest : list uid) :
  index (Attr ts) 0 = Done attr0 ->
  forall uids values msv k uids' values' msv' k',
    sortByValue_loop keys pstore types ctx ts typ rest uids values msv k =
      Done (inl (uids', values', msv'), k') ->
    uids' = uids ++ filter (fetched keys pstore types attr0 (Langs ts) typ) rest /\
    values' = values ++ map (fun v => [v]) (valuesOf attr0 (Langs ts) typ rest) /\
    msv' = (if multi ts then msv ++ valuesOf attr0 (Langs ts) typ rest else msv) /\
    k' = (k + List.length rest)%nat.
Proof.
  intros Hattr. induction rest as [|u rest IH];
    intros uids values msv k uids' values' msv' k' H.
  - cbn in H. injection H as <- <- <- <-. cbn.
    rewrite !app_nil_r, Nat.add_0_r. destruct (multi ts); auto.
  - cbn [sortByValue_loop] in H.
    apply bind_Done in H as (c & k1 & Hpoll & H).
    unfold poll in Hpoll. injection Hpoll as <- <-.
    destruct (ctx k); [apply ret_Done in H as [H _]; discriminate|].
    apply bind_Done in H as (a & k2 & Ha & H).
    apply lift_Done in Ha as [Ha ->]. rewrite Hattr in Ha. injection Ha as <-.
    cbn [filter flat_map]. unfold fetched at 1.
    destruct (fetchValue keys pstore types u attr0 (Langs ts) typ) as [val|e];
      apply IH in H as (-> & -> & -> & ->); cbn [app map List.length].
    + rewrite <- !app_assoc. cbn [app].
      repeat split; try lia. destruct (multi ts); [now rewrite <- app_assoc|reflexivity].
    + repeat split; lia.
Qed.

(** X4: When no poll finds the context cancelled, the values [sortByValue]
    returns on more than one attribute are those of the identifiers it
    keeps, in the order of the row it was given, whatever the order it
    leaves the identifiers in; on one attribute it returns no values. *)
Theorem sortByValue_values_in_row_order (ctx : Context) (ts : SortMessage)
    (ul : list uid) (typ : TypeID) (attr0 : string) (desc0 : bool) (k : nat) :
  index (Attr ts) 0 = Done attr0 ->
  index (Desc ts) 0 = Done desc0 ->
  (forall j, (k <= j < k + List.length ul)%nat -> ctx j = false) ->
  exists out e,
    sortByValue keys pstore types ctx ts ul typ k =
      Done ((out,
             (if multi ts then valuesOf attr0 (Langs ts) typ ul else []),
             e), (k + List.length ul)%nat).
Proof.
  intros Hattr Hdesc Hctx.
  destruct (sortByValue_loop_run keys pstore types ctx ts typ attr0 ul [] [] [] k
              Hattr Hctx) as (values & msv & Hrun & Hv & Hm).
  cbn [app List.length Nat.add] in Hrun, Hv, Hm.
  destruct (sortByValue_loop_end ctx ts typ attr0 ul Hattr _ _ _ _ _ _ _ _ Hrun)
    as (_ & _ & Hmsv & _).
  cbn [app] in Hmsv.
  set (kept := filter (fetched keys pstore types attr0 (Langs ts) typ) ul) in *.
  pose proof (types_Sort_length types values kept [desc0] Hv) as Hlen.
  unfold sortByValue, bind at 1. rewrite Hrun.
  unfold bind at 1, lift at 1. rewrite Hdesc.
  destruct (types_Sort types values kept [desc0]) as [sorted e]. cbn [fst] in Hlen.
  exists sorted, e.
  assert (Hassert : (if multi ts then assertTrue (len sorted =? len msv) else Done tt)
                    = Done tt).
  { destruct (multi ts); [|reflexivity].
    unfold len. rewrite Hlen, Hm, Z.eqb_refl. reflexivity. }
  unfold bind, lift. rewrite Hassert. cbn. rewrite Hmsv.
  destruct (multi ts); reflexivity.
Qed.

(** X5: A poll of [sortByValue] that finds the context cancelled ends it at
    once: the row is left as it was and the error is the context's. *)
Theorem sortByValue_cancelled_row_unchanged (ctx : Context) (ts : SortMessage)
    (ul : list uid) (typ : TypeID) (k : nat) out vals e (k' : nat) :
  sortByValue keys pstore types ctx ts ul typ k = Done ((out, vals, e), k') ->
  cancelSeen ctx k k' ->
  out = ul /\ e = Some ErrContext /\ ctx (k' - 1)%nat = true.
Proof.
  unfold sortByValue. intros H Hseen.
  apply bind_Done in H as (r & k1 & Hloop & Htail).
  destruct r as [[[uids values] msv]|[vals0 e0]].
  - exfalso.
    assert (Hk : k' = k1).
    { match type of Htail with
      | ?m k1 = _ => assert (Hn : nopoll m) by nopoll_tac
      end.
      exact (Hn _ _ _ Htail). }
    subst k'. apply sortByValue_loop_cancel in Hloop as [_ Hc].
    destruct (Hc Hseen) as [v Hv]. discriminate.
  - apply ret_Done in Htail as [Heq ->]. injection Heq as -> -> ->.
    pose proof Hloop as Hloop'.
    apply sortByValue_loop_cancel in Hloop' as [_ Hc].
    destruct (Hc Hseen) as [v Hv]. injection Hv as _ ->.
    split; [reflexivity|]. split; [reflexivity|].
    clear Hc Hseen. revert Hloop. generalize (@nil uid) as uids.
    generalize (@nil (list (Val Payload))) as values.
    generalize (@nil (Val Payload)) as msv. revert k.
    induction ul as [|u ul IH]; intros k msv values uids Hloop.
    + cbn in Hloop. discriminate.
    + cbn [sortByValue_loop] in Hloop.
      apply bind_Done in Hloop as (c & k2 & Hpoll & Hloop).
      unfold poll in Hpoll. injection Hpoll as <- <-.
      destruct (ctx k) eqn:Hk.
      * apply ret_Done in Hloop as [_ ->]. cbn. now rewrite Nat.sub_0_r.
      * apply bind_Done in Hloop as (a & k3 & Ha & Hloop).
        apply lift_Done in Ha as [_ ->].
        destruct (fetchValue keys pstore types u a (Langs ts) typ);
          now apply IH in Hloop.
Qed.

End RowSorterMore.

(** ** More on the bucket intersector *)

Section IntersectorMore.

Context {Payload : Type}.
Variable keys : Keys.
Variable pstore : Store Payload.
Variable types : Types Payload.

(** The three ways a turn of the loop over the rows leaves an accumulator:
    untouched, with its offset lowered by the size of the intersection, or
    with a window of the sorted hits appended. *)
Lemma intersectRow_inv (ctx : Context) (ts : SortMessage) (scalar : TypeID)
    (key : bytes) (ul : list uid) (il il' : intersectedList Payload) (k k' : nat) :
  intersectRow keys pstore types ctx ts scalar key ul il k = Done (inl il', k') ->
  il' = il \/
  il' = {| offset := offset il - len (Uids pstore key ul);
           ulist := ulist il; values := values il |} \/
  exists sorted vs,
    sortByValue keys pstore types ctx ts (Uids pstore key ul) scalar k =
      Done ((sorted, vs, None), k') /\
    (Count ts >? 0) && (len (ulist il) >=? Count ts) = false /\
    offset il <= len sorted /\
    il' = {| offset := Z.min 0 (offset il);
             ulist := ulist il ++
               firstn (Z.to_nat
                         (if (Count ts >? 0) && (len (Attr ts) =? 1)
                          then Z.min (len (skipn (Z.to_nat (offset il)) sorted))
                                     (Count ts - len (ulist il))
                          else len (skipn (Z.to_nat (offset il)) sorted)))
                      (skipn (Z.to_nat (offset il)) sorted);
             values := if multi ts
                       then values il ++
                            firstn (Z.to_nat
                                      (if (Count ts >? 0) && (len (Attr ts) =? 1)
                                       then Z.min (len (skipn (Z.to_nat (offset il)) sorted))
                                                  (Count ts - len (ulist il))
                                       else len (skipn (Z.to_nat (offset il)) sorted)))
                                   (skipn (Z.to_nat (offset il)) vs)
                       else values il |}.
Proof.
  intros H.
  destruct ((Count ts >? 0) && (len (ulist il) >=? Count ts)) eqn:Hgate.
  { unfold intersectRow in H. rewrite Hgate in H.
    apply ret_Done in H as [H _]. left. now injection H. }
  destruct (Z.geb_spec (offset il) (len (Uids pstore key ul))) as [Hge|Hlt].
  { unfold intersectRow in H. rewrite Hgate in H.
    destruct (Z.geb_spec (offset il) (len (Uids pstore key ul))); [|lia].
    apply ret_Done in H as [H _]. right. left. now injection H. }
  right. right.
  pose proof H as H0. unfold intersectRow in H0. rewrite Hgate in H0.
  destruct (Z.geb_spec (offset il) (len (Uids pstore key ul))); [lia|].
  apply bind_Done in H0 as ([[sorted vs] e] & k1 & Hsort & Htail).
  destruct e as [e|]; [apply ret_Done in Htail as [Heq _]; discriminate|].
  assert (Hk : k' = k1).
  { match type of Htail with
    | ?m k1 = _ => assert (Hn : nopoll m) by nopoll_tac
    end.
    exact (Hn _ _ _ Htail). }
  subst k1. clear Htail.
  destruct (Z.le_gt_cases (offset il) (len sorted)) as [Hle|Hgt].
  - exists sorted, vs. repeat split; try assumption.
    rewrite (intersectRow_window keys pstore types ctx ts scalar key ul il k
               sorted vs k' Hgate Hlt Hsort Hle) in H.
    injection H as <-. reflexivity.
  - rewrite (intersectRow_past_sorted keys pstore types ctx ts scalar key ul il k
               sorted vs k' Hgate Hlt Hsort) in H by lia.
    discriminate.
Qed.

End IntersectorMore.

(** ** Invariants of the indexed scan *)

Section ScanInvariant.

Context {Payload : Type}.
Variable schema : Schema.
Variable keys : Keys.
Variable pstore : Store Payload.
Variable types : Types Payload.
Variable ctx : Context.
Variable ts : SortMessage.
Variable attr0 : string.
Hypothesis Hattr : index (Attr ts) 0 = Done attr0.

(** A relation between a row and its accumulator that every turn of the
    loop of [intersectBucket] keeps. *)
Variable R : list uid -> intersectedList Payload -> Prop.
Hypothesis R_kept :
  forall scalar key ul il il' k k',
    TypeOf schema attr0 = inl scalar ->
    intersectRow keys pstore types ctx ts scalar key ul il k = Done (inl il', k') ->
    R ul il -> R ul il'.

Lemma intersectRows_kept (scalar : TypeID) (key : bytes) (rows : list (list uid)) :
  TypeOf schema attr0 = inl scalar ->
  forall out k out' e k',
    intersectRows keys pstore types ctx ts scalar key rows out k = Done ((out', e), k') ->
    Forall2 R rows out -> Forall2 R rows out'.
Proof.
  intros Hty. induction rows as [|ul rows IH]; intros out k out' e k' H HR.
  - cbn in H. apply ret_Done in H as [Heq _]. now injection Heq as -> _.
  - inversion HR as [|? il ? out0 Hil Hout]; subst.
    cbn [intersectRows] in H.
    apply bind_Done in H as (r & k1 & Hrow & H).
    destruct r as [il'|e0].
    + apply bind_Done in H as ([out'' e1] & k2 & Hrest & H).
      apply ret_Done in H as [Heq _]. injection Heq as -> _.
      constructor; [exact (R_kept _ _ _ _ _ _ _ Hty Hrow Hil) | exact (IH _ _ _ _ _ Hrest Hout)].
    + apply ret_Done in H as [Heq _]. injection Heq as -> _. exact HR.
Qed.

Lemma intersectBucket_kept (token : string) out k out' e k' :
  intersectBucket schema keys pstore types ctx ts token out k = Done ((out', e), k') ->
  Forall2 R (UidMatrix ts) out -> Forall2 R (UidMatrix ts) out'.
Proof.
  unfold intersectBucket. intros H HR.
  apply bind_Done in H as (a & k1 & Ha & H).
  apply lift_Done in Ha as [Ha ->]. rewrite Hattr in Ha. injection Ha as <-.
  remember (TypeOf schema attr0) as ty eqn:Hty in H.
  destruct ty as [sType|e0]; symmetry in Hty.
  2:{ apply ret_Done in H as [Heq _]. now injection Heq as -> _. }
  destruct (negb (IsScalar sType)).
  { apply ret_Done in H as [Heq _]. now injection Heq as -> _. }
  apply bind_Done in H as ([out1 e1] & k2 & Hrows & H).
  apply (intersectRows_kept sType _ _ Hty) in Hrows; [|exact HR].
  destruct e1 as [e1|].
  - apply ret_Done in H as [Heq _]. now injection Heq as -> _.
  - apply bind_Done in H as (e2 & k3 & _ & H).
    apply ret_Done in H as [Heq _]. now injection Heq as -> _.
Qed.

Lemma buckets_kept (indexPrefix : bytes) (ks : list bytes) :
  forall out k out' k',
    buckets schema keys pstore types ctx ts indexPrefix ks out k = Done (inl out', k') ->
    Forall2 R (UidMatrix ts) out -> Forall2 R (UidMatrix ts) out'.
Proof.
  induction ks as [|key ks IH]; intros out k out' k' H HR.
  - cbn in H. apply ret_Done in H as [Heq _]. now injection Heq as ->.
  - cbn [buckets] in H.
    destruct (negb (prefix indexPrefix key)).
    { apply ret_Done in H as [Heq _]. now injection Heq as ->. }
    apply bind_Done in H as (c & k1 & _ & H).
    destruct c; [apply ret_Done in H as [Heq _]; discriminate|].
    destruct (Parse keys key) as [pk|]; [|apply lift_Done in H as [H _]; discriminate].
    apply bind_Done in H as (u & k2 & _ & H).
    apply bind_Done in H as ([out1 e] & k3 & Hbucket & H).
    apply intersectBucket_kept in Hbucket; [|exact HR].
    destruct e; try (apply ret_Done in H as [Heq _]; discriminate).
    + now apply IH in H.
    + apply ret_Done in H as [Heq _]. now injection Heq as ->.
Qed.

(** What [sortWithIndex] returns without error is read off accumulators that
    are in the relation with the rows of the request. *)
Lemma sortWithIndex_kept (k : nat) (res : sortresult Payload) (k' : nat) :
  (forall row, R row {| offset := Offset ts; ulist := []; values := [] |}) ->
  sortWithIndex schema keys pstore types ctx ts k = Done (res, k') ->
  err res = None ->
  exists out,
    Forall2 R (UidMatrix ts) out /\
    reply res = Some {| r_UidMatrix := map ulist out |} /\
    vals res = if multi ts then map values out else [].
Proof.
  intros Hfresh H Herr.
  assert (Hinit : forall rows : list (list uid),
            Forall2 R rows (repeat {| offset := Offset ts; ulist := []; values := [] |}
                                   (List.length rows)))
    by (induction rows; cbn; constructor; auto).
  unfold sortWithIndex in H.
  apply bind_Done in H as (desc0 & k1 & _ & H).
  apply bind_Done in H as (a & k2 & _ & H).
  destruct (TypeOf schema a) as [typ|e0];
    [|apply ret_Done in H as [-> _]; discriminate].
  destruct (negb (IsIndexed schema a));
    [apply ret_Done in H as [-> _]; discriminate|].
  destruct (firstSortable (Tokenizers schema a)) as [tokenizer|].
  2:{ destruct (TypeID_eqb typ StringID);
        apply ret_Done in H as [-> _]; discriminate. }
  unfold scanIndex in H.
  apply bind_Done in H as (r & k3 & Hb & H).
  destruct r as [out|res0].
  - apply buckets_kept in Hb.
    + apply bind_Done in H as (c & k4 & _ & H).
      destruct c; apply ret_Done in H as [-> _]; [discriminate|].
      exists out. repeat split. exact Hb.
    + apply Hinit.
  - apply ret_Done in H as [-> _].
    apply buckets_cancel in Hb as (_ & _ & Hf).
    destruct (Hf _ eq_refl) as [e ->]. discriminate.
Qed.

End ScanInvariant.

(** ** What the scanners return *)

Lemma In_firstn_skipn {A : Type} (n m : nat) (l : list A) (x : A) :
  In x (firstn n (skipn m l)) -> In x l.
Proof.
  intros H.
  assert (Hs : In x (skipn m l)).
  { rewrite <- (firstn_skipn n (skipn m l)). apply in_or_app. now left. }
  rewrite <- (firstn_skipn m l). apply in_or_app. now right.
Qed.

Lemma slice_In {A : Type} (s s' : list A) (lo hi : Z) (x : A) :
  slice s lo hi = Done s' -> In x s' -> In x s.
Proof.
  unfold slice. destruct ((0 <=? lo) && (lo <=? hi) && (hi <=? len s)); [|discriminate].
  intros H. injection H as <-. apply In_firstn_skipn.
Qed.

Section ScannerResults.

Context {Payload : Type}.
Variable schema : Schema.
Variable keys : Keys.
Variable pstore : Store Payload.
Variable types : Types Payload.

Lemma valuesOf_length (attr : string) (langs : list string) (typ : TypeID)
    (row : list uid) :
  List.length
    (flat_map (fun u => match fetchValue keys pstore types u attr langs typ with
                        | inl v => [v]
                        | inr _ => []
                        end) row) =
  List.length (filter (fetched keys pstore types attr langs typ) row).
Proof.
  induction row as [|u row IH]; [reflexivity|].
  cbn [flat_map filter]. unfold fetched at 1.
  destruct (fetchValue keys pstore types u attr langs typ); cbn; now rewrite IH.
Qed.

(** The row [sortByValue] leaves without error is a permutation of the
    identifiers whose fetch succeeds. *)
Lemma sortByValue_ok_perm (ctx : Context) (ts : SortMessage) (ul : list uid)
    (typ : TypeID) (attr0 : string) k out vs k' :
  index (Attr ts) 0 = Done attr0 ->
  sortByValue keys pstore types ctx ts ul typ k = Done ((out, vs, None), k') ->
  Permutation out (filter (fetched keys pstore types attr0 (Langs ts) typ) ul).
Proof.
  intros Hattr H. unfold sortByValue in H.
  apply bind_Done in H as (r & k1 & Hloop & H).
  destruct r as [[[uids values] msv]|[vals0 e0]].
  2:{ apply ret_Done in H as [Heq _]. discriminate. }
  apply (sortByValue_loop_end keys pstore types ctx ts typ attr0 ul Hattr) in Hloop
    as (Hu & Hv & _ & _).
  cbn [app] in Hu, Hv.
  apply bind_Done in H as (d & k2 & _ & H).
  pose proof (types_Sort_perm types values uids [d]) as Hperm.
  destruct (types_Sort types values uids [d]) as [sorted e].
  apply bind_Done in H as (x & k3 & _ & H).
  apply ret_Done in H as [Heq _]. injection Heq as -> _ _.
  cbn [fst] in Hperm. rewrite <- Hu. apply Hperm.
  rewrite Hv, Hu, length_map. apply valuesOf_length.
Qed.

Lemma sortWithoutIndex_loop_rows (ctx : Context) (ts : SortMessage)
    (sType : TypeID) (attr0 : string) (rows : list (list uid)) :
  index (Attr ts) 0 = Done attr0 ->
  forall acc k res k',
    sortWithoutIndex_loop keys pstore types ctx ts sType rows acc k = Done (res, k') ->
    err res = None ->
    exists out,
      reply res = Some {| r_UidMatrix := acc ++ out |} /\
      Forall2 (fun row row' =>
                 exists sorted,
                   Permutation sorted
                     (filter (fetched keys pstore types attr0 (Langs ts) sType) row) /\
                   paginate ts sorted = Done row')
              rows out.
Proof.
  intros Hattr. induction rows as [|row rows IH]; intros acc k res k' H Herr.
  - cbn in H. apply ret_Done in H as [-> _]. exists []. cbn.
    rewrite app_nil_r. split; [reflexivity | constructor].
  - cbn [sortWithoutIndex_loop] in H.
    apply bind_Done in H as (c & k1 & _ & H).
    destruct c; [apply ret_Done in H as [-> _]; discriminate|].
    apply bind_Done in H as ([[sorted vs] e] & k2 & Hsort & H).
    destruct e as [e|]; [apply ret_Done in H as [-> _]; discriminate|].
    apply bind_Done in H as (row' & k3 & Hpag & H).
    apply lift_Done in Hpag as [Hpag _].
    destruct (IH _ _ _ _ H Herr) as (out & Hrep & Hall).
    exists (row' :: out). rewrite <- app_assoc in Hrep. split; [exact Hrep|].
    constructor; [|exact Hall].
    exists sorted. split; [|exact Hpag].
    exact (sortByValue_ok_perm _ _ _ _ _ _ _ _ _ Hattr Hsort).
Qed.

(** X6: The non-indexed scanner, when it returns without error: the attribute
    is a scalar of the catalog, there are no values, and there is one row
    per row of the request, which is the page [paginate] cuts in the
    identifiers of that row that have a value, sorted; so it holds only
    identifiers of that row that have a value. *)
Theorem sortWithoutIndex_rows (ctx : Context) (ts : SortMessage) (k : nat)
    (res : sortresult Payload) (k' : nat) :
  sortWithoutIndex schema keys pstore types ctx ts k = Done (res, k') ->
  err res = None ->
  exists attr0 sType out,
    index (Attr ts) 0 = Done attr0 /\
    TypeOf schema attr0 = inl sType /\ IsScalar sType = true /\
    reply res = Some {| r_UidMatrix := out |} /\
    vals res = [] /\
    Forall2 (fun row row' =>
               (exists sorted,
                  Permutation sorted
                    (filter (fetched keys pstore types attr0 (Langs ts) sType) row) /\
                  paginate ts sorted = Done row') /\
               (forall u, In u row' ->
                  In u row /\ fetched keys pstore types attr0 (Langs ts) sType u = true))
            (UidMatrix ts) out.
Proof.
  intros H Herr. pose proof H as Hshape.
  apply sortWithoutIndex_shape in Hshape as [Hvals _].
  unfold sortWithoutIndex in H.
  apply bind_Done in H as (attr0 & k1 & Ha & H).
  apply lift_Done in Ha as [Ha ->].
  destruct (TypeOf schema attr0) as [sType|e0] eqn:Hty;
    [|apply ret_Done in H as [-> _]; discriminate].
  destruct (IsScalar sType) eqn:Hsc; cbn [negb] in H;
    [|apply ret_Done in H as [-> _]; discriminate].
  destruct (sortWithoutIndex_loop_rows ctx ts sType attr0 _ Ha _ _ _ _ H Herr)
    as (out & Hrep & Hall).
  exists attr0, sType, out. repeat split; try assumption.
  eapply Forall2_impl; [|exact Hall].
  intros row row' (sorted & Hperm & Hpag). split; [now exists sorted|].
  intros u Hu. unfold paginate in Hpag.
  destruct (PageRange (Count ts) (Offset ts) (len sorted)) as [start stop].
  apply (slice_In _ _ _ _ _ Hpag) in Hu.
  apply (Permutation_in _ Hperm) in Hu. now apply filter_In in Hu.
Qed.

Lemma sortWithIndex_attr (ctx : Context) (ts : SortMessage) k res k' :
  sortWithIndex schema keys pstore types ctx ts k = Done (res, k') ->
  err res = None ->
  exists attr0 typ, index (Attr ts) 0 = Done attr0 /\ TypeOf schema attr0 = inl typ.
Proof.
  unfold sortWithIndex. intros H Herr.
  apply bind_Done in H as (desc0 & k1 & _ & H).
  apply bind_Done in H as (a & k2 & Ha & H).
  apply lift_Done in Ha as [Ha _].
  destruct (TypeOf schema a) as [typ|e0] eqn:Hty;
    [|apply ret_Done in H as [-> _]; discriminate].
  now exists a, typ.
Qed.

Lemma firstn_skipn_same_length {A B : Type} (n m : nat) (a : list A) (b : list B) :
  List.length a = List.length b ->
  List.length (firstn n (skipn m a)) = List.length (firstn n (skipn m b)).
Proof. intros H. rewrite !length_firstn, !length_skipn, H. reflexivity. Qed.

(** X7: The indexed scanner, when it returns without error, returns one row
    per row of the request; on more than one attribute it returns one row
    of values per row of identifiers, of the same length, which is what the
    extender asserts of them; on one attribute it returns no values. *)
Theorem sortWithIndex_shape (ctx : Context) (ts : SortMessage) (k : nat)
    (res : sortresult Payload) (k' : nat) :
  sortWithIndex schema keys pstore types ctx ts k = Done (res, k') ->
  err res = None ->
  exists rows,
    reply res = Some {| r_UidMatrix := rows |} /\
    List.length rows = List.length (UidMatrix ts) /\
    (multi ts = true ->
     Forall2 (fun (row : list uid) (vs : list (Val Payload)) =>
                List.length row = List.length vs) rows (vals res)) /\
    (multi ts = false -> vals res = []).
Proof.
  intros H Herr.
  destruct (sortWithIndex_attr ctx ts k res k' H Herr) as (attr0 & typ & Hattr & _).
  destruct (sortWithIndex_kept schema keys pstore types ctx ts attr0 Hattr
              (fun _ il => multi ts = true ->
                           List.length (values il) = List.length (ulist il)))
    with (k := k) (res := res) (k' := k') as (out & Hall & Hrep & Hvals);
    try assumption.
  - intros scalar key ul il il' k0 k0' _ Hrow Hil Hm.
    apply intersectRow_inv in Hrow as [->|[->|(sorted & vs & Hsort & _ & _ & ->)]];
      cbn [values ulist]; auto.
    rewrite Hm, !length_app, (Hil Hm). f_equal.
    apply firstn_skipn_same_length. apply Nat2Z.inj.
    exact (sortByValue_vals_length keys pstore types _ _ _ _ _ _ _ _ Hsort Hm).
  - reflexivity.
  - exists (map ulist out). split; [exact Hrep|]. split.
    + rewrite length_map. symmetry. exact (Forall2_length Hall).
    + rewrite Hvals. split; intros Hm; rewrite Hm; [|reflexivity].
      clear - Hall Hm. induction Hall as [|row il rows out Hil _ IH]; cbn; constructor.
      * symmetry. now apply Hil.
      * exact IH.
Qed.

(** X8: On one attribute and a positive count, no row the indexed scanner
    returns holds more than [count] identifiers. *)
Theorem sortWithIndex_size_bound (ctx : Context) (ts : SortMessage) (k : nat)
    (res : sortresult Payload) (k' : nat) :
  len (Attr ts) = 1 ->
  0 < Count ts ->
  sortWithIndex schema keys pstore types ctx ts k = Done (res, k') ->
  err res = None ->
  exists rows,
    reply res = Some {| r_UidMatrix := rows |} /\
    Forall (fun row => len row <= Count ts) rows.
Proof.
  intros Hsingle Hcount H Herr.
  destruct (sortWithIndex_attr ctx ts k res k' H Herr) as (attr0 & typ & Hattr & _).
  destruct (sortWithIndex_kept schema keys pstore types ctx ts attr0 Hattr
              (fun _ il => len (ulist il) <= Count ts))
    with (k := k) (res := res) (k' := k') as (out & Hall & Hrep & _);
    try assumption.
  - intros scalar key ul il il' k0 k0' _ Hrow Hil.
    apply intersectRow_inv in Hrow as [->|[->|(sorted & vs & _ & Hgate & _ & ->)]];
      cbn [ulist]; auto.
    rewrite Hsingle, Z.eqb_refl in *.
    destruct (Z.gtb_spec (Count ts) 0); [|lia]. cbn [andb] in *.
    destruct (Z.geb_spec (len (ulist il)) (Count ts)); [discriminate|].
    unfold len in *. rewrite length_app, length_firstn. lia.
  - intros _. cbn. lia.
  - exists (map ulist out). split; [exact Hrep|].
    apply Forall_map. clear - Hall.
    induction Hall; constructor; auto.
Qed.

(** X9: When the posting lists answer an intersection with identifiers of the
    list they are intersected with, every identifier of a row the indexed
    scanner returns is an identifier of the same row of the request, and
    one whose value for the first attribute can be fetched. *)
Theorem sortWithIndex_members (ctx : Context) (ts : SortMessage) (k : nat)
    (res : sortresult Payload) (k' : nat) :
  (forall key ul u, In u (Uids pstore key ul) -> In u ul) ->
  sortWithIndex schema keys pstore types ctx ts k = Done (res, k') ->
  err res = None ->
  exists attr0 typ rows,
    index (Attr ts) 0 = Done attr0 /\
    TypeOf schema attr0 = inl typ /\
    reply res = Some {| r_UidMatrix := rows |} /\
    Forall2 (fun row row' =>
               forall u, In u row' ->
                 In u row /\ fetched keys pstore types attr0 (Langs ts) typ u = true)
            (UidMatrix ts) rows.
Proof.
  intros Hsub H Herr.
  destruct (sortWithIndex_attr ctx ts k res k' H Herr) as (attr0 & typ & Hattr & Hty).
  destruct (sortWithIndex_kept schema keys pstore types ctx ts attr0 Hattr
              (fun row il => forall u, In u (ulist il) ->
                 In u row /\ fetched keys pstore types attr0 (Langs ts) typ u = true))
    with (k := k) (res := res) (k' := k') as (out & Hall & Hrep & _);
    try assumption.
  - intros scalar key ul il il' k0 k0' Hscalar Hrow Hil.
    rewrite Hty in Hscalar. injection Hscalar as <-.
    apply intersectRow_inv in Hrow as [->|[->|(sorted & vs & Hsort & _ & _ & ->)]];
      cbn [ulist]; auto.
    intros u Hu. apply in_app_or in Hu as [Hu|Hu]; [now apply Hil|].
    apply In_firstn_skipn in Hu.
    apply (Permutation_in _ (sortByValue_ok_perm _ _ _ _ _ _ _ _ _ Hattr Hsort)) in Hu.
    apply filter_In in Hu as [Hu Hf]. split; [now apply (Hsub key) | exact Hf].
  - intros _ u [].
  - exists attr0, typ, (map ulist out). repeat split; try assumption.
    clear - Hall. induction Hall; cbn; constructor; auto.
Qed.

End ScannerResults.

(** ** The closing check of [intersectBucket] on one attribute *)

Section ClosingCheck.

Context {Payload : Type}.

Lemma checkSizes_zero (ts : SortMessage) (rows : list (list uid))
    (out : list (intersectedList Payload)) :
  len (Attr ts) = 1 ->
  List.length rows = List.length out ->
  Count ts = 0 ->
  checkSizes ts rows out =
    if forallb (fun il => len (ulist il) =? 0) out
    then Done errDone else Crash AssertionFailed.
Proof.
  intros Hsingle Hlen Hzero. revert out Hlen.
  induction rows as [|row rows IH]; intros [|il out] Hlen; try discriminate.
  - reflexivity.
  - injection Hlen as Hlen. cbn [checkSizes forallb]. rewrite Hsingle, Z.eqb_refl.
    pose proof (len_nonneg (ulist il)) as Hnn.
    destruct (Z.ltb_spec (len (ulist il)) (Count ts)); [lia|].
    destruct (Z.eqb_spec (len (ulist il)) (Count ts));
      destruct (Z.eqb_spec (len (ulist il)) 0); try lia;
      cbn [assertTrue rbind andb]; [now apply IH | reflexivity].
Qed.

(** X10: on one attribute and a positive count, with accumulators that hold
    at most [count] identifiers, the assertion of the closing loop holds:
    the loop answers [errDone] when every accumulator holds [count]
    identifiers and [errContinue] otherwise.  On one attribute and a count
    of zero the loop never asks for another bucket: it answers [errDone]
    when every accumulator is empty, and fails its assertion as soon as one
    holds an identifier. *)
Theorem checkSizes_single (ts : SortMessage) (rows : list (list uid))
    (out : list (intersectedList Payload)) :
  len (Attr ts) = 1 ->
  List.length rows = List.length out ->
  (0 < Count ts ->
   Forall (fun il => len (ulist il) <= Count ts) out ->
   checkSizes ts rows out =
     Done (if forallb (fun il => len (ulist il) =? Count ts) out
           then errDone else errContinue)) /\
  (Count ts = 0 ->
   checkSizes ts rows out =
     if forallb (fun il => len (ulist il) =? 0) out
     then Done errDone else Crash AssertionFailed).
Proof.
  intros Hsingle Hlen. split; [|now apply checkSizes_zero].
  intros Hcount. revert out Hlen.
  induction rows as [|row rows IH]; intros [|il out] Hlen Hall; try discriminate.
  - reflexivity.
  - injection Hlen as Hlen. inversion Hall as [|? ? Hil Hout]; subst.
    cbn [checkSizes forallb]. rewrite Hsingle, Z.eqb_refl.
    destruct (Z.ltb_spec (len (ulist il)) (Count ts));
      destruct (Z.eqb_spec (len (ulist il)) (Count ts)); try lia; [reflexivity|].
    cbn [assertTrue rbind andb]. now apply IH.
Qed.

End ClosingCheck.

(** ** The indexed scanner on one attribute and a count of zero *)

Section CountZero.

Context {Payload : Type}.
Variable schema : Schema.
Variable keys : Keys.
Variable pstore : Store Payload.
Variable types : Types Payload.

(** The two errors of the file that steer the loop over the buckets are its
    own: [types.Sort] does not return them. *)
Hypothesis sentinels_private :
  forall v, SortError types v <> Some errContinue /\ SortError types v <> Some errDone.

Lemma sortByValue_error_source (ctx : Context) (ts : SortMessage) (ul : list uid)
    (typ : TypeID) k out vs e k' :
  sortByValue keys pstore types ctx ts ul typ k = Done ((out, vs, Some e), k') ->
  e <> errContinue /\ e <> errDone.
Proof.
  unfold sortByValue. intros H.
  apply bind_Done in H as (r & k1 & Hloop & H).
  destruct r as [[[uids values] msv]|[vals0 e0]].
  - apply bind_Done in H as (d & k2 & _ & H).
    unfold types_Sort in H.
    destruct (SortError types values) as [e1|] eqn:Hse.
    + apply bind_Done in H as (x & k3 & _ & H).
      apply ret_Done in H as [Heq _]. injection Heq as _ _ ->.
      destruct (sentinels_private values). split; congruence.
    + apply bind_Done in H as (x & k3 & _ & H).
      apply ret_Done in H as [Heq _]. discriminate.
  - apply ret_Done in H as [Heq _]. injection Heq as _ _ ->.
    assert (He : e0 = ErrContext).
    { clear - Hloop. revert Hloop. generalize (@nil uid) as uids.
      generalize (@nil (list (Val Payload))) as values.
      generalize (@nil (Val Payload)) as msv. revert k.
      induction ul as [|u ul IH]; intros k msv values uids Hloop.
      - cbn in Hloop. discriminate.
      - cbn [sortByValue_loop] in Hloop.
        apply bind_Done in Hloop as (c & k2 & _ & Hloop).
        destruct c.
        + apply ret_Done in Hloop as [Heq _]. now injection Heq as _ ->.
        + apply bind_Done in Hloop as (a & k3 & _ & Hloop).
          destruct (fetchValue keys pstore types u a (Langs ts) typ);
            now apply IH in Hloop. }
    subst e0. split; discriminate.
Qed.

Lemma intersectRows_error_source (ctx : Context) (ts : SortMessage)
    (scalar : TypeID) (key : bytes) (rows : list (list uid)) :
  forall out k out' e k',
    intersectRows keys pstore types ctx ts scalar key rows out k =
      Done ((out', Some e), k') ->
    e <> errContinue /\ e <> errDone.
Proof.
  induction rows as [|ul rows IH]; intros out k out' e k' H.
  - cbn in H. apply ret_Done in H as [Heq _]. discriminate.
  - destruct out as [|il out]; [discriminate|].
    cbn [intersectRows] in H.
    apply bind_Done in H as (r & k1 & Hrow & H).
    destruct r as [il'|e0].
    + apply bind_Done in H as ([out'' e1] & k2 & Hrest & H).
      apply ret_Done in H as [Heq _]. injection Heq as _ <-.
      now apply IH in Hrest.
    + apply ret_Done in H as [Heq _]. injection Heq as _ ->.
      unfold intersectRow in Hrow.
      destruct ((Count ts >? 0) && (len (ulist il) >=? Count ts));
        [apply ret_Done in Hrow as [Heq _]; discriminate|].
      destruct (offset il >=? len (Uids pstore key ul));
        [apply ret_Done in Hrow as [Heq _]; discriminate|].
      apply bind_Done in Hrow as ([[sorted vs] e1] & k2 & Hsort & Hrow).
      destruct e1 as [e1|].
      * apply ret_Done in Hrow as [Heq _]. injection Heq as ->.
        now apply sortByValue_error_source in Hsort.
      * exfalso. revert Hrow.
        match goal with
        | |- ?m k2 = _ -> _ =>
            assert (Hok : forall x k3, m k2 = Done (x, k3) -> exists il', x = inl il')
        end.
        { intros x k3 Hx.
          apply bind_Done in Hx as ([[[a b] c] d] & k4 & _ & Hx).
          apply bind_Done in Hx as (t & k5 & _ & Hx).
          apply bind_Done in Hx as (v & k6 & _ & Hx).
          apply ret_Done in Hx as [-> _]. now eexists. }
        intros Hrow. destruct (Hok _ _ Hrow) as [il' Hil']. discriminate.
Qed.

Lemma intersectRows_length (ctx : Context) (ts : SortMessage)
    (scalar : TypeID) (key : bytes) (rows : list (list uid)) :
  forall out k out' e k',
    intersectRows keys pstore types ctx ts scalar key rows out k = Done ((out', e), k') ->
    List.length out' = List.length out.
Proof.
  induction rows as [|ul rows IH]; intros out k out' e k' H.
  - cbn in H. apply ret_Done in H as [Heq _]. now injection Heq as -> _.
  - destruct out as [|il out]; [discriminate|].
    cbn [intersectRows] in H.
    apply bind_Done in H as (r & k1 & _ & H).
    destruct r as [il'|e0].
    + apply bind_Done in H as ([out'' e1] & k2 & Hrest & H).
      apply ret_Done in H as [Heq _]. injection Heq as -> _.
      cbn. f_equal. now apply IH in Hrest.
    + apply ret_Done in H as [Heq _]. now injection Heq as -> _.
Qed.

Lemma intersectBucket_count_zero (ctx : Context) (ts : SortMessage)
    (token : string) out k out' e k' :
  len (Attr ts) = 1 -> Count ts = 0 ->
  List.length (UidMatrix ts) = List.length out ->
  intersectBucket schema keys pstore types ctx ts token out k = Done ((out', e), k') ->
  e <> errContinue /\
  (e = errDone -> Forall (fun il => ulist il = []) out').
Proof.
  intros Hsingle Hzero Hlen H. unfold intersectBucket in H.
  apply bind_Done in H as (a & k1 & _ & H).
  assert (Hobj : forall x, ret (x, ErrObjectType) k1 = Done ((out', e), k') ->
            e <> errContinue /\ (e = errDone -> Forall (fun il => ulist il = []) out')).
  { intros x Hx. apply ret_Done in Hx as [Heq _]. injection Heq as _ ->.
    split; [discriminate | discriminate]. }
  destruct (TypeOf schema a) as [sType|e0]; [|now apply Hobj in H].
  destruct (negb (IsScalar sType)); [now apply Hobj in H|].
  apply bind_Done in H as ([out1 e1] & k2 & Hrows & H).
  destruct e1 as [e1|].
  - apply ret_Done in H as [Heq _]. injection Heq as _ ->.
    apply intersectRows_error_source in Hrows as [Hc Hd]. split; [exact Hc|].
    intros He. contradiction.
  - apply intersectRows_length in Hrows.
    apply bind_Done in H as (e2 & k3 & Hchk & H).
    apply lift_Done in Hchk as [Hchk _].
    apply ret_Done in H as [Heq _]. injection Heq as -> ->.
    rewrite (checkSizes_zero ts (UidMatrix ts) out1 Hsingle) in Hchk by (lia || assumption).
    destruct (forallb (fun il => len (ulist il) =? 0) out1) eqn:Hall; [|discriminate].
    injection Hchk as <-. split; [discriminate|]. intros _.
    apply Forall_forall. intros il Hil.
    rewrite forallb_forall in Hall. specialize (Hall il Hil).
    apply Z.eqb_eq in Hall. unfold len in Hall.
    destruct (ulist il); [reflexivity | cbn in Hall; lia].
Qed.

Lemma buckets_length (ctx : Context) (ts : SortMessage) (indexPrefix : bytes)
    (ks : list bytes) :
  forall out k out' k',
    buckets schema keys pstore types ctx ts indexPrefix ks out k = Done (inl out', k') ->
    List.length out' = List.length out.
Proof.
  induction ks as [|key ks IH]; intros out k out' k' H.
  - cbn in H. apply ret_Done in H as [Heq _]. now injection Heq as ->.
  - cbn [buckets] in H.
    destruct (negb (prefix indexPrefix key)).
    { apply ret_Done in H as [Heq _]. now injection Heq as ->. }
    apply bind_Done in H as (c & k1 & _ & H).
    destruct c; [apply ret_Done in H as [Heq _]; discriminate|].
    destruct (Parse keys key) as [pk|]; [|apply lift_Done in H as [H _]; discriminate].
    apply bind_Done in H as (u & k2 & _ & H).
    apply bind_Done in H as ([out1 e] & k3 & Hbucket & H).
    assert (Hl : List.length out1 = List.length out).
    { unfold intersectBucket in Hbucket.
      apply bind_Done in Hbucket as (a & k4 & _ & Hbucket).
      destruct (TypeOf schema a) as [sType|e0];
        [|apply ret_Done in Hbucket as [Heq _]; now injection Heq as -> _].
      destruct (negb (IsScalar sType));
        [apply ret_Done in Hbucket as [Heq _]; now injection Heq as -> _|].
      apply bind_Done in Hbucket as ([out2 e2] & k5 & Hrows & Hbucket).
      apply intersectRows_length in Hrows.
      destruct e2 as [e2|].
      - apply ret_Done in Hbucket as [Heq _]. now injection Heq as -> _.
      - apply bind_Done in Hbucket as (e3 & k6 & _ & Hbucket).
        apply ret_Done in Hbucket as [Heq _]. now injection Heq as -> _. }
    destruct e; try (apply ret_Done in H as [Heq _]; discriminate).
    + apply IH in H. congruence.
    + apply ret_Done in H as [Heq _]. injection Heq as ->. exact Hl.
Qed.

Lemma buckets_count_zero (ctx : Context) (ts : SortMessage) (indexPrefix : bytes)
    (ks : list bytes) :
  len (Attr ts) = 1 -> Count ts = 0 ->
  forall out k out' k',
    List.length (UidMatrix ts) = List.length out ->
    Forall (fun il => ulist il = []) out ->
    buckets schema keys pstore types ctx ts indexPrefix ks out k = Done (inl out', k') ->
    Forall (fun il => ulist il = []) out'.
Proof.
  intros Hsingle Hzero.
  induction ks as [|key ks IH]; intros out k out' k' Hlen Hall H.
  - cbn in H. apply ret_Done in H as [Heq _]. now injection Heq as ->.
  - cbn [buckets] in H.
    destruct (negb (prefix indexPrefix key)).
    { apply ret_Done in H as [Heq _]. now injection Heq as ->. }
    apply bind_Done in H as (c & k1 & _ & H).
    destruct c; [apply ret_Done in H as [Heq _]; discriminate|].
    destruct (Parse keys key) as [pk|]; [|apply lift_Done in H as [H _]; discriminate].
    apply bind_Done in H as (u & k2 & _ & H).
    apply bind_Done in H as ([out1 e] & k3 & Hbucket & H).
    apply (intersectBucket_count_zero _ _ _ _ _ _ _ _ Hsingle Hzero Hlen) in Hbucket
      as [Hc Hd].
    destruct e; try (apply ret_Done in H as [Heq _]; discriminate).
    + contradiction.
    + apply ret_Done in H as [Heq _]. injection Heq as ->. now apply Hd.
Qed.

(** X11: On one attribute and a count of zero, which [paginate] reads as "all",
    the indexed scanner returns no identifier: what it returns without
    error is one empty row per row of the request. *)
Theorem sortWithIndex_count_zero (ctx : Context) (ts : SortMessage) (k : nat)
    (res : sortresult Payload) (k' : nat) :
  len (Attr ts) = 1 ->
  Count ts = 0 ->
  sortWithIndex schema keys pstore types ctx ts k = Done (res, k') ->
  err res = None ->
  reply res =
    Some {| r_UidMatrix := repeat [] (List.length (UidMatrix ts)) |}.
Proof.
  intros Hsingle Hzero H Herr. unfold sortWithIndex in H.
  apply bind_Done in H as (desc0 & k1 & _ & H).
  apply bind_Done in H as (a & k2 & _ & H).
  destruct (TypeOf schema a) as [typ|e0];
    [|apply ret_Done in H as [-> _]; discriminate].
  destruct (negb (IsIndexed schema a));
    [apply ret_Done in H as [-> _]; discriminate|].
  destruct (firstSortable (Tokenizers schema a)) as [tokenizer|].
  2:{ destruct (TypeID_eqb typ StringID);
        apply ret_Done in H as [-> _]; discriminate. }
  unfold scanIndex in H.
  apply bind_Done in H as (r & k3 & Hb & H).
  destruct r as [out|res0].
  - pose proof (buckets_length _ _ _ _ _ _ _ _ Hb) as Hlen.
    rewrite repeat_length in Hlen. symmetry in Hlen.
    apply (buckets_count_zero _ _ _ _ Hsingle Hzero) in Hb.
    + apply bind_Done in H as (c & k4 & _ & H).
      destruct c; apply ret_Done in H as [-> _]; [discriminate|].
      cbn [reply]. do 2 f_equal. rewrite Hlen. clear - Hb.
      induction Hb as [|il out Hil _ IH]; cbn; [reflexivity|].
      now rewrite Hil, IH.
    + now rewrite repeat_length.
    + clear. induction (List.length (UidMatrix ts)); cbn; constructor; auto.
  - apply ret_Done in H as [-> _].
    apply buckets_cancel in Hb as (_ & _ & Hf).
    destruct (Hf _ eq_refl) as [e ->]. discriminate.
Qed.

End CountZero.

(** ** What [processSort] returns *)

Section ProcessSortResults.

Context {Payload : Type}.
Variable schema : Schema.
Variable keys : Keys.
Variable pstore : Store Payload.
Variable types : Types Payload.
Variable cluster : Cluster.

Lemma sortWithIndex_row_count (ctx : Context) (ts : SortMessage) k
    (res : sortresult Payload) k' :
  sortWithIndex schema keys pstore types ctx ts k = Done (res, k') ->
  err res = None ->
  exists m, reply res = Some {| r_UidMatrix := m |} /\
            List.length m = List.length (UidMatrix ts).
Proof.
  intros H Herr.
  destruct (sortWithIndex_attr schema keys pstore types ctx ts k res k' H Herr)
    as (attr0 & typ & Hattr & _).
  destruct (sortWithIndex_kept schema keys pstore types ctx ts attr0 Hattr
              (fun _ _ => True))
    with (k := k) (res := res) (k' := k') as (out & Hall & Hrep & _); auto.
  exists (map ulist out). split; [exact Hrep|].
  rewrite length_map. symmetry. exact (Forall2_length Hall).
Qed.

Lemma sortWithIndex_sub (ctx : Context) (ts : SortMessage) k
    (res : sortresult Payload) k' :
  (forall key ul u, In u (Uids pstore key ul) -> In u ul) ->
  sortWithIndex schema keys pstore types ctx ts k = Done (res, k') ->
  err res = None ->
  exists m, reply res = Some {| r_UidMatrix := m |} /\
            Forall2 (fun row row' => forall u, In u row' -> In u row)
                    (UidMatrix ts) m.
Proof.
  intros Hsub H Herr.
  destruct (sortWithIndex_attr schema keys pstore types ctx ts k res k' H Herr)
    as (attr0 & typ & Hattr & _).
  destruct (sortWithIndex_kept schema keys pstore types ctx ts attr0 Hattr
              (fun row il => forall u, In u (ulist il) -> In u row))
    with (k := k) (res := res) (k' := k') as (out & Hall & Hrep & _);
    try assumption.
  - intros scalar key ul il il' k0 k0' _ Hrow Hil.
    apply intersectRow_inv in Hrow as [->|[->|(sorted & vs & Hsort & _ & _ & ->)]];
      cbn [ulist]; auto.
    intros u Hu. apply in_app_or in Hu as [Hu|Hu]; [now apply Hil|].
    apply In_firstn_skipn in Hu.
    apply (Permutation_in _ (sortByValue_ok_perm keys pstore types _ _ _ _ _ _ _ _ _
                               Hattr Hsort)) in Hu.
    apply filter_In in Hu as [Hu _]. now apply (Hsub key).
  - intros _ u [].
  - exists (map ulist out). split; [exact Hrep|].
    clear - Hall. induction Hall; cbn; constructor; auto.
Qed.

Lemma sortWithoutIndex_sub (ctx : Context) (ts : SortMessage) k
    (res : sortresult Payload) k' :
  sortWithoutIndex schema keys pstore types ctx ts k = Done (res, k') ->
  err res = None ->
  exists m, reply res = Some {| r_UidMatrix := m |} /\
            Forall2 (fun row row' => forall u, In u row' -> In u row)
                    (UidMatrix ts) m.
Proof.
  intros H Herr. unfold sortWithoutIndex in H.
  apply bind_Done in H as (attr0 & k1 & Ha & H).
  apply lift_Done in Ha as [Ha ->].
  destruct (TypeOf schema attr0) as [sType|e0];
    [|apply ret_Done in H as [-> _]; discriminate].
  destruct (negb (IsScalar sType));
    [apply ret_Done in H as [-> _]; discriminate|].
  destruct (sortWithoutIndex_loop_rows keys pstore types ctx ts sType attr0 _ Ha
              _ _ _ _ H Herr) as (out & Hrep & Hall).
  exists out. split; [exact Hrep|].
  eapply Forall2_impl; [|exact Hall].
  intros row row' (sorted & Hperm & Hpag) u Hu. unfold paginate in Hpag.
  destruct (PageRange (Count ts) (Offset ts) (len sorted)) as [start stop].
  apply (slice_In _ _ _ _ _ Hpag) in Hu.
  apply (Permutation_in _ Hperm) in Hu. now apply filter_In in Hu.
Qed.

(** A result the racer hands on without error is the result of one of the
    two scanners. *)
Lemma race_result (sch : Schedule) (ts : SortMessage) (res : sortresult Payload) :
  race schema keys pstore types sch ts = Done res ->
  err res = None ->
  (exists k', sortWithoutIndex schema keys pstore types (cctxWithout sch) ts O
              = Done (res, k')) \/
  (exists k', sortWithIndex schema keys pstore types (cctxWith sch) ts O
              = Done (res, k')).
Proof.
  unfold race, runScanner. intros H Herr.
  apply rbind_Done in H as (without & Hwo & H).
  apply rbind_Done in H as (withIndex & Hwi & H).
  destruct (sortWithIndex schema keys pstore types (cctxWith sch) ts O)
    as [[r2 k2]|c] eqn:Hrun2; [|discriminate].
  injection Hwi as ->.
  assert (Hcases : res = withIndex \/ res = without).
  { destruct (indexedFirst sch); destruct (err withIndex) eqn:E1;
      destruct (err without) eqn:E2; injection H as <-; auto. }
  destruct Hcases as [-> | ->].
  - right. now exists k2.
  - left. destruct (timerFirst sch).
    + destruct (sortWithoutIndex schema keys pstore types (cctxWithout sch) ts O)
        as [[r1 k1]|c] eqn:Hrun1; [|discriminate].
      injection Hwo as ->. now exists k1.
    + injection Hwo as <-. discriminate.
Qed.

Lemma multiSortRows_rows (ts : SortMessage) dest sortVals (rows : list (list uid)) :
  forall rows',
    multiSortRows types ts dest sortVals rows = Done rows' ->
    Forall2 (fun row row' =>
               exists sorted,
                 Permutation sorted row /\
                 row' = firstn (Z.to_nat (Count ts)) sorted /\
                 len row' = Count ts)
            rows rows'.
Proof.
  induction rows as [|ul rows IH]; intros rows' H; cbn in H.
  - injection H as <-. constructor.
  - apply rbind_Done in H as (row' & Hrow & H).
    apply rbind_Done in H as (rest & Hrest & H).
    injection H as <-. constructor; [|now apply IH].
    pose proof (multiSortRow_length types ts dest sortVals ul row' Hrow) as Hlen.
    unfold multiSortRow in Hrow.
    apply rbind_Done in Hrow as (vs & Hvs & Hrow).
    pose proof (types_Sort_perm types vs ul (Desc ts)
                  (rowSortVals_length _ _ _ _ Hvs)) as Hperm.
    destruct (types_Sort types vs ul (Desc ts)) as [sorted e]. cbn [fst] in Hperm.
    apply rbind_Done in Hrow as (x & _ & Hrow).
    exists sorted. split; [exact Hperm|]. split; [|exact Hlen].
    unfold slice in Hrow.
    destruct ((0 <=? 0) && (0 <=? Count ts) && (Count ts <=? len sorted));
      [|discriminate].
    injection Hrow as <-. now rewrite Z.sub_0_r.
Qed.

(** X12: The matrix [processSort] returns without error has one row per row of
    the request, and on more than one attribute each of its rows holds
    exactly [count] identifiers. *)
Theorem processSort_row_count (sch : Schedule) (ts : SortMessage)
    (rep : option SortResult) :
  processSort schema keys pstore types cluster sch ts = Done (rep, None) ->
  exists rows,
    rep = Some {| r_UidMatrix := rows |} /\
    List.length rows = List.length (UidMatrix ts) /\
    (1 < len (Attr ts) -> Forall (fun row => len row = Count ts) rows).
Proof.
  intros H. pose proof H as Hrun. unfold processSort in H.
  destruct (Count ts <? 0); [discriminate|].
  apply rbind_Done in H as (attr0 & _ & H).
  destruct (IsList schema attr0); [discriminate|].
  apply rbind_Done in H as (res & Hrace & H).
  destruct (err res) as [e|] eqn:Herr.
  { cbn [isErr] in H. rewrite orb_true_r in H. discriminate. }
  assert (Hprimary : exists m, reply res = Some {| r_UidMatrix := m |} /\
                               List.length m = List.length (UidMatrix ts)).
  { destruct (race_result sch ts res Hrace Herr) as [[k' Hs]|[k' Hs]].
    - apply sortWithoutIndex_shape in Hs as [_ Hs]. now apply Hs.
    - now apply sortWithIndex_row_count in Hs. }
  destruct Hprimary as (m & Hm & Hl).
  cbn [isErr] in H. rewrite orb_false_r in H.
  destruct (Z.gtb_spec (len (Attr ts)) 1) as [Hmulti|Hsingle]; cbn [negb] in H.
  - destruct (processSort_multi_rows schema keys pstore types cluster sch ts rep)
      as (rows & -> & Hrows); [lia | exact Hrun|].
    exists rows. split; [reflexivity|]. split; [|intros _; exact Hrows].
    unfold extend in H. rewrite Hm in H.
    apply rbind_Done in H as (sv & _ & H).
    apply rbind_Done in H as (och & _ & H).
    apply rbind_Done in H as (got & _ & H).
    destruct got as [[[e|] sv']|e]; try discriminate.
    apply rbind_Done in H as (rows' & Hrows' & H).
    injection H as <-. apply multiSortRows_rows in Hrows'.
    apply Forall2_length in Hrows'. cbn [r_UidMatrix] in Hrows'. lia.
  - injection H as <-. exists m. split; [exact Hm|]. split; [exact Hl|]. lia.
Qed.

(** X13: When the posting lists answer an intersection with identifiers of the
    list they are intersected with, [processSort] returns in each row only
    identifiers of the same row of the request. *)
Theorem processSort_members (sch : Schedule) (ts : SortMessage)
    (rep : option SortResult) :
  (forall key ul u, In u (Uids pstore key ul) -> In u ul) ->
  processSort schema keys pstore types cluster sch ts = Done (rep, None) ->
  exists rows,
    rep = Some {| r_UidMatrix := rows |} /\
    Forall2 (fun row row' => forall u, In u row' -> In u row) (UidMatrix ts) rows.
Proof.
  intros Hsub H. unfold processSort in H.
  destruct (Count ts <? 0); [discriminate|].
  apply rbind_Done in H as (attr0 & _ & H).
  destruct (IsList schema attr0); [discriminate|].
  apply rbind_Done in H as (res & Hrace & H).
  destruct (err res) as [e|] eqn:Herr.
  { cbn [isErr] in H. rewrite orb_true_r in H. discriminate. }
  assert (Hprimary : exists m, reply res = Some {| r_UidMatrix := m |} /\
            Forall2 (fun row row' => forall u, In u row' -> In u row)
                    (UidMatrix ts) m).
  { destruct (race_result sch ts res Hrace Herr) as [[k' Hs]|[k' Hs]].
    - now apply sortWithoutIndex_sub in Hs.
    - now apply sortWithIndex_sub in Hs. }
  destruct Hprimary as (m & Hm & Hall).
  cbn [isErr] in H. rewrite orb_false_r in H.
  destruct (len (Attr ts) >? 1); cbn [negb] in H.
  - unfold extend in H. rewrite Hm in H.
    apply rbind_Done in H as (sv & _ & H).
    apply rbind_Done in H as (och & _ & H).
    apply rbind_Done in H as (got & _ & H).
    destruct got as [[[e|] sv']|e]; try discriminate.
    apply rbind_Done in H as (rows' & Hrows' & H).
    injection H as <-. exists rows'. split; [reflexivity|].
    apply multiSortRows_rows in Hrows'. cbn [r_UidMatrix] in Hrows'.
    clear - Hall Hrows'. revert rows' Hrows'.
    induction Hall as [|row p rows m Hp _ IH]; intros rows' Hrows';
      inversion Hrows' as [|? r' ? rest (sorted & Hperm & -> & _) Hrest]; subst;
      constructor.
    + intros u Hu. apply Hp.
      apply (Permutation_in _ Hperm).
      rewrite <- (firstn_skipn (Z.to_nat (Count ts)) sorted).
      apply in_or_app. now left.
    + now apply IH.
  - injection H as <-. now exists m.
Qed.

End ProcessSortResults.

(** ** The fetches of the extender *)

Lemma substring_all (s : string) : substring 0 (String.length s) s = s.
Proof. induction s as [|c s IH]; cbn; [reflexivity | now rewrite IH]. Qed.

Section FetchFacts.

Context {Payload : Type}.
Variable keys : Keys.
Variable types : Types Payload.
Variable cluster : Cluster.

(** X14: [fetchValues] asks for the attribute as it is, or, when its name starts
    with a tilde, for the name without the tilde along the reverse edges;
    it sends back what the task returns under the index it was given. *)
Theorem fetchValues_query (attr : string) (dest : list uid) (i : Z) :
  (fetchValues cluster (String "~" attr) dest i =
     {| idx := i;
        r := fst (ProcessTaskOverNetwork cluster
                    {| q_Attr := attr; q_UidList := dest; q_Reverse := true |});
        o_err := snd (ProcessTaskOverNetwork cluster
                    {| q_Attr := attr; q_UidList := dest; q_Reverse := true |}) |}) /\
  (prefix "~" attr = false ->
   fetchValues cluster attr dest i =
     {| idx := i;
        r := fst (ProcessTaskOverNetwork cluster
                    {| q_Attr := attr; q_UidList := dest; q_Reverse := false |});
        o_err := snd (ProcessTaskOverNetwork cluster
                    {| q_Attr := attr; q_UidList := dest; q_Reverse := false |}) |}).
Proof.
  split.
  - unfold fetchValues.
    assert (Hp : prefix "~" (String "~" attr) = true)
      by (cbn; now destruct attr).
    rewrite Hp. cbn [String.length]. rewrite Nat.sub_succ, Nat.sub_0_r.
    change (substring 1 (String.length attr) (String "~" attr))
      with (substring 0 (String.length attr) attr).
    rewrite substring_all.
    now destruct (ProcessTaskOverNetwork cluster _).
  - intros Hp. unfold fetchValues. rewrite Hp.
    now destruct (ProcessTaskOverNetwork cluster _).
Qed.

(** X15: A failed fetch is not lost: when one of the orders received carries an
    error, the loop, if it comes to its end, comes to it with an error.  But
    only the first failure is taken as one: from then on every order is
    read as a result, so the loop comes to its end only if each later order
    carries a result with one row of values per identifier; a later order
    with a nil result is a panic. *)
Theorem receiveOrders_failures (dest : list uid) (och : list orderResult)
    (oerr : option error) (sortVals : list (list (Val Payload)))
    (oerr' : option error) (sortVals' : list (list (Val Payload))) :
  receiveOrders keys types dest och oerr sortVals = Done (inl (oerr', sortVals')) ->
  (oerr <> None \/ Exists (fun o => o_err o <> None) och -> oerr' <> None) /\
  (oerr <> None ->
   oerr' = oerr /\
   Forall (fun o => exists result,
                      r o = Some result /\ len (ValueMatrix result) = len dest) och).
Proof.
  revert oerr sortVals. induction och as [|o och IH]; intros oerr sortVals H.
  - cbn in H. injection H as <- <-. split.
    + intros [Ho|Hex]; [exact Ho | inversion Hex].
    + intros _. split; [reflexivity | constructor].
  - cbn [receiveOrders] in H.
    assert (Hread : forall result,
              r o = Some result ->
              (assertTrue (len (ValueMatrix result) =? len dest) ;;;
               s <-- storeSecondary keys types (ValueMatrix result) (idx o) 0 dest []
                       sortVals ;;;
               match s with
               | inr e => Done (inr e)
               | inl sortVals0 => receiveOrders keys types dest och oerr sortVals0
               end)%run = Done (inl (oerr', sortVals')) ->
              len (ValueMatrix result) = len dest /\
              exists sv0, receiveOrders keys types dest och oerr sv0
                          = Done (inl (oerr', sortVals'))).
    { intros result _ Hr.
      apply rbind_Done in Hr as (u & Hassert & Hr).
      unfold assertTrue in Hassert.
      destruct (Z.eqb_spec (len (ValueMatrix result)) (len dest)); [|discriminate].
      apply rbind_Done in Hr as (s & _ & Hr).
      destruct s as [sv0|e0]; [|discriminate].
      split; [assumption | now exists sv0]. }
    destruct (o_err o) as [e|] eqn:Hoe; destruct oerr as [e0|].
    + destruct (r o) as [result|] eqn:Hro; [|discriminate].
      destruct (Hread result eq_refl H) as [Hl [sv0 Hrest]].
      destruct (IH _ _ Hrest) as [IHa IHb]. split.
      * intros _. apply IHa. left. discriminate.
      * intros _. destruct IHb as [-> Hall]; [discriminate|].
        split; [reflexivity|]. constructor; [now exists result | exact Hall].
    + destruct (IH _ _ H) as [IHa IHb]. split.
      * intros _. apply IHa. left. discriminate.
      * intros Hn. contradiction.
    + destruct (r o) as [result|] eqn:Hro; [|discriminate].
      destruct (Hread result eq_refl H) as [Hl [sv0 Hrest]].
      destruct (IH _ _ Hrest) as [IHa IHb]. split.
      * intros _. apply IHa. left. discriminate.
      * intros _. destruct IHb as [-> Hall]; [discriminate|].
        split; [reflexivity|]. constructor; [now exists result | exact Hall].
    + destruct (r o) as [result|] eqn:Hro; [|discriminate].
      destruct (Hread result eq_refl H) as [Hl [sv0 Hrest]].
      destruct (IH _ _ Hrest) as [IHa IHb]. split.
      * intros [Hn|Hex]; [contradiction|].
        apply IHa. right. inversion Hex as [? ? Ho|? ? Hex']; subst; [|exact Hex'].
        rewrite Hoe in Ho. contradiction.
      * intros Hn. contradiction.
Qed.

End FetchFacts.

(** ** The handler and the dispatcher *)

Section EntryPoints.

Context {Payload : Type}.
Variable schema : Schema.
Variable keys : Keys.
Variable pstore : Store Payload.
Variable types : Types Payload.
Variable cluster : Cluster.
Variable processWithBackupRequest :
  Z -> SortMessage -> option SortResult * option error.

(** X16: On the server of the group of the first attribute, with a context that
    is not cancelled, the handler [Sort] and the dispatcher
    [SortOverNetwork] give the same outcome, that of [processSort]: the
    dispatcher makes no remote call. *)
Theorem Sort_agrees_with_SortOverNetwork (ctx : Context) (sch : Schedule)
    (s : SortMessage) (attr0 : string) :
  index (Attr s) 0 = Done attr0 ->
  ServesGroup cluster (BelongsTo cluster attr0) = true ->
  ctx O = false -> ctx 1%nat = false ->
  Sort schema keys pstore types cluster ctx sch s =
    processSort schema keys pstore types cluster sch s /\
  SortOverNetwork schema keys pstore types cluster processWithBackupRequest sch s =
    processSort schema keys pstore types cluster sch s.
Proof.
  intros Hattr Hserve H0 H1. unfold Sort, SortOverNetwork.
  rewrite Hattr, H0, H1. cbn [rbind]. rewrite Hserve. cbn [assertTrue rbind].
  split; [|reflexivity].
  now destruct (processSort schema keys pstore types cluster sch s).
Qed.

(** X17: Whenever one of the two polls of the handler finds the context
    cancelled, what the handler returns is the context's error with the
    empty result, whatever [processSort] computed. *)
Theorem Sort_cancelled (ctx : Context) (sch : Schedule) (s : SortMessage)
    (rep : option SortResult) (e : option error) :
  Sort schema keys pstore types cluster ctx sch s = Done (rep, e) ->
  ctx O = true \/ ctx 1%nat = true ->
  rep = Some emptySortResult /\ e = Some ErrContext.
Proof.
  unfold Sort. intros H Hc.
  destruct (ctx O) eqn:H0.
  - injection H as <- <-. auto.
  - destruct Hc as [Hc|Hc]; [discriminate|]. rewrite Hc in H.
    apply rbind_Done in H as (a & _ & H).
    apply rbind_Done in H as (u & _ & H).
    apply rbind_Done in H as (res & _ & H).
    injection H as <- <-. auto.
Qed.

End EntryPoints.

(** ** The first column of the extender *)

Lemma set_nth_ok {A : Type} (P : A -> Prop) (s : list A) (i : nat) (v : A) :
  (i < List.length s)%nat -> Forall P s -> P v ->
  exists s', set_nth s i v = Some s' /\
             List.length s' = List.length s /\ Forall P s'.
Proof.
  revert i. induction s as [|a s IH]; intros i Hi Hall Hv; [cbn in Hi; lia|].
  inversion Hall as [|? ? Ha Hs]; subst. destruct i as [|i]; cbn.
  - exists (v :: s). repeat split. now constructor.
  - destruct (IH i) as (s' & -> & Hl & Hp); [cbn in Hi; lia | assumption..|].
    exists (a :: s'). cbn. repeat split; [now rewrite Hl | now constructor].
Qed.

Section FirstColumn.

Context {Payload : Type}.

Lemma setSortVal_ok (sortVals : list (list (Val Payload))) (i : Z) (v : Val Payload) :
  0 <= i < len sortVals ->
  Forall (fun row => row <> []) sortVals ->
  exists sortVals',
    setSortVal sortVals i 0 v = Done sortVals' /\
    List.length sortVals' = List.length sortVals /\
    Forall (fun row => row <> []) sortVals'.
Proof.
  intros Hi Hall. unfold setSortVal, index, assign.
  destruct (Z.ltb_spec i 0); [lia|].
  destruct (nth_error sortVals (Z.to_nat i)) as [row|] eqn:Hn.
  2:{ apply nth_error_None in Hn. unfold len in Hi. lia. }
  assert (Hrow : row <> []).
  { rewrite Forall_forall in Hall. apply Hall. eapply nth_error_In, Hn. }
  destruct row as [|x row]; [contradiction|]. cbn.
  destruct (set_nth_ok (fun row => row <> []) sortVals (Z.to_nat i) (v :: row))
    as (s' & -> & Hl & Hp); [unfold len in Hi; lia | exact Hall | discriminate|].
  now exists s'.
Qed.

Lemma fillPrimaryRow_ok (dest : list uid) (rowVals : list (Val Payload))
    (uids : list uid) :
  (forall u, In u uids -> In u dest) ->
  forall j seen sortVals,
    0 <= j -> j + len uids = len rowVals ->
    List.length sortVals = List.length dest ->
    Forall (fun row => row <> []) sortVals ->
    exists seen' sortVals',
      fillPrimaryRow dest rowVals j uids seen sortVals = Done (seen', sortVals') /\
      List.length sortVals' = List.length dest /\
      Forall (fun row => row <> []) sortVals'.
Proof.
  induction uids as [|u uids IH]; intros Hin j seen sortVals Hj Hlen Hsv Hne.
  - now exists seen, sortVals.
  - cbn [fillPrimaryRow].
    destruct (IndexOf_found dest u (Hin u (or_introl eq_refl))) as [Hidx _].
    unfold assertTrue. destruct (Z.geb_spec (IndexOf dest u) 0); [|lia].
    cbn [rbind].
    assert (Hlen' : j + 1 + len uids = len rowVals)
      by (unfold len in *; cbn [List.length] in Hlen; lia).
    destruct (seenUid seen u).
    + apply IH; auto; [intros x Hx; apply Hin; now right | lia].
    + assert (Hv : exists v, index rowVals j = Done v).
      { unfold index. destruct (Z.ltb_spec j 0); [lia|].
        destruct (nth_error rowVals (Z.to_nat j)) as [v|] eqn:Hn; [now exists v|].
        apply nth_error_None in Hn. unfold len in *. cbn [List.length] in Hlen. lia. }
      destruct Hv as [v ->]. cbn [rbind].
      destruct (setSortVal_ok sortVals (IndexOf dest u) v) as (sv' & -> & Hl & Hp);
        [unfold len in *; lia | exact Hne|].
      cbn [rbind]. apply IH; auto; [intros x Hx; apply Hin; now right | lia | lia].
Qed.

(** X3: The loop that fills the first column of [sortVals] comes to its end,
    without a failed assertion or a read out of range, when the result it
    walks carries one row of values per row of identifiers, of the same
    length, and the request has an attribute; this is what the indexed
    scanner returns on more than one attribute. *)
Theorem fillPrimary_total (ts : SortMessage) (rows : list (list uid))
    (vals : list (list (Val Payload))) :
  0 < len (Attr ts) ->
  Forall2 (fun (row : list uid) (vs : list (Val Payload)) =>
             List.length row = List.length vs) rows vals ->
  exists sortVals,
    fillPrimary (destUids rows) vals 0 rows []
      (repeat (repeat zeroVal (List.length (Attr ts)))
              (List.length (destUids rows))) = Done sortVals /\
    List.length sortVals = List.length (destUids rows).
Proof.
  intros Hattr Hall.
  assert (Hin : forall row, In row rows -> forall u, In u row -> In u (destUids rows)).
  { intros row Hrow u Hu. apply destUids_In. now exists row. }
  assert (Hgen : forall rows' vals' pre seen sortVals,
            Forall2 (fun (row : list uid) (vs : list (Val Payload)) =>
                       List.length row = List.length vs) rows' vals' ->
            (forall row, In row rows' -> forall u, In u row -> In u (destUids rows)) ->
            List.length sortVals = List.length (destUids rows) ->
            Forall (fun row => row <> []) sortVals ->
            exists sortVals',
              fillPrimary (destUids rows) (pre ++ vals') (len pre) rows' seen sortVals
                = Done sortVals' /\
              List.length sortVals' = List.length (destUids rows)).
  { intros rows' vals' pre seen sortVals H. revert pre seen sortVals.
    induction H as [|row vs rows' vals' Hrv _ IH]; intros pre seen sortVals Hin' Hl Hne.
    - now exists sortVals.
    - cbn [fillPrimary].
      assert (Hidx : index (pre ++ vs :: vals') (len pre) = Done vs).
      { unfold index, len. destruct (Z.ltb_spec (Z.of_nat (List.length pre)) 0); [lia|].
        rewrite Nat2Z.id, nth_error_app2, Nat.sub_diag by lia. reflexivity. }
      rewrite Hidx. cbn [rbind]. unfold assertTrue, len at 1 2.
      rewrite Hrv, Z.eqb_refl. cbn [rbind].
      destruct (fillPrimaryRow_ok (destUids rows) vs row
                  (Hin' row (or_introl eq_refl)) 0 seen sortVals)
        as (seen' & sv' & -> & Hl' & Hne'); try assumption;
        [lia | unfold len; lia|].
      cbn [rbind].
      replace (pre ++ vs :: vals') with ((pre ++ [vs]) ++ vals')
        by (now rewrite <- app_assoc).
      replace (len pre + 1) with (len (pre ++ [vs]))
        by (unfold len; rewrite length_app; cbn; lia).
      apply IH; auto. intros r Hr. apply Hin'. now right. }
  apply (Hgen rows vals [] []); auto.
  - now rewrite repeat_length.
  - apply Forall_forall. intros row Hrow. apply repeat_spec in Hrow. subst row.
    unfold len in Hattr. destruct (Attr ts); [cbn in Hattr; lia | discriminate].
Qed.

End FirstColumn.

(** ** More runs on the small database *)

Module DbMore.

Import Db.
Local Open Scope string_scope.

(** The posting lists of the database answer an intersection with
    identifiers of the list they are intersected with. *)
Lemma Uids_sub (key : bytes) (ul : list uid) (u : uid) :
  In u (Uids pstore key ul) -> In u ul.
Proof.
  cbn [Uids pstore]. destruct (lookupKey key indexEntries) as [pl|]; [|intros []].
  intros H. apply filter_In in H as [_ H].
  apply existsb_exists in H as (x & Hx & Heq).
  apply N.eqb_eq in Heq. now subst x.
Qed.

Lemma rowSortVals_total_witness :
  exists vs,
    rowSortVals (destUids [[2; 1]; [3]]%N) (repeat [@zeroVal Z] 3) [2; 1]%N = Done vs /\
    Forall2 (fun u v =>
               0 <= IndexOf (destUids [[2; 1]; [3]]%N) u /\
               index (repeat [@zeroVal Z] 3) (IndexOf (destUids [[2; 1]; [3]]%N) u)
                 = Done v)
            [2; 1]%N vs.
Proof.
  apply (rowSortVals_total [[2; 1]; [3]]%N (repeat [@zeroVal Z] 3) [2; 1]%N).
  - reflexivity.
  - left. reflexivity.
Defined.

Lemma fillPrimary_total_witness :
  exists sortVals,
    fillPrimary (destUids [[2; 1]%N])
      [[ {| Tid := IntID; Value := Some 10%Z |}; {| Tid := IntID; Value := Some 30%Z |} ]]
      0 [[2; 1]%N] []
      (repeat (repeat zeroVal (List.length (Attr (byAgeThenNick [[1; 2]%N] 5))))
              (List.length (destUids [[2; 1]%N]))) = Done sortVals /\
    List.length sortVals = List.length (destUids [[2; 1]%N]).
Proof.
  apply (fillPrimary_total (byAgeThenNick [[1; 2]%N] 5) [[2; 1]%N]).
  - reflexivity.
  - repeat constructor.
Defined.

Lemma sortByValue_values_in_row_order_witness :
  exists out e,
    sortByValue keys pstore types background byNickDescThenAge [1; 2; 3]%N StringID 0%nat
      = Done ((out,
               [ {| Tid := StringID; Value := Some 1%Z |};
                 {| Tid := StringID; Value := Some 2%Z |};
                 {| Tid := StringID; Value := Some 3%Z |} ],
               e), 3%nat).
Proof.
  exact (sortByValue_values_in_row_order keys pstore types background
           byNickDescThenAge [1; 2; 3]%N StringID "nick" true 0%nat
           eq_refl eq_refl (fun _ _ => eq_refl)).
Defined.

Lemma sortByValue_cancelled_row_unchanged_witness :
  sortByValue keys pstore types cancelled byAge [1; 2; 3]%N IntID 0%nat
    = Done (([1; 2; 3]%N, [], Some ErrContext), 1%nat) /\
  ([1; 2; 3]%N = [1; 2; 3]%N /\ Some ErrContext = Some ErrContext /\
   cancelled (1 - 1)%nat = true).
Proof.
  assert (Hrun : sortByValue keys pstore types cancelled byAge [1; 2; 3]%N IntID 0%nat
                 = Done (([1; 2; 3]%N, [], Some ErrContext), 1%nat))
    by (vm_compute; reflexivity).
  split; [exact Hrun|].
  apply (sortByValue_cancelled_row_unchanged keys pstore types cancelled byAge
           [1; 2; 3]%N IntID 0%nat _ _ _ _ Hrun).
  exists 0%nat. split; [lia | reflexivity].
Defined.

Lemma sortWithoutIndex_rows_witness :
  exists res k',
    sortWithoutIndex schema keys pstore types background byNick 0%nat = Done (res, k') /\
    err res = None /\
    exists out,
      reply res = Some {| r_UidMatrix := out |} /\ vals res = [] /\
      Forall2 (fun row row' => forall u, In u row' -> In u row) (UidMatrix byNick) out.
Proof.
  eexists _, _. split; [vm_compute; reflexivity|]. split; [reflexivity|].
  destruct (sortWithoutIndex_rows schema keys pstore types background byNick 0%nat
              _ _ eq_refl eq_refl)
    as (attr0 & sType & out & _ & _ & _ & Hrep & Hvals & Hall).
  exists out. split; [exact Hrep|]. split; [exact Hvals|].
  eapply Forall2_impl; [|exact Hall].
  intros row row' [_ Hin] u Hu. now apply Hin.
Defined.

Lemma sortWithIndex_shape_witness :
  exists res k',
    sortWithIndex schema keys pstore types background (byAgeThenNick [[1; 2]%N] 5) 0%nat
      = Done (res, k') /\
    err res = None /\
    exists rows,
      reply res = Some {| r_UidMatrix := rows |} /\
      List.length rows = 1%nat /\
      Forall2 (fun (row : list uid) (vs : list (Val Z)) =>
                 List.length row = List.length vs) rows (vals res).
Proof.
  eexists _, _. split; [vm_compute; reflexivity|]. split; [reflexivity|].
  destruct (sortWithIndex_shape schema keys pstore types background
              (byAgeThenNick [[1; 2]%N] 5) 0%nat _ _ eq_refl eq_refl)
    as (rows & Hrep & Hlen & Hmulti & _).
  exists rows. split; [exact Hrep|]. split; [exact Hlen|]. now apply Hmulti.
Defined.

Lemma sortWithIndex_size_bound_witness :
  exists res k',
    sortWithIndex schema keys pstore types background byAge 0%nat = Done (res, k') /\
    err res = None /\
    exists rows,
      reply res = Some {| r_UidMatrix := rows |} /\
      Forall (fun row => len row <= 3) rows.
Proof.
  eexists _, _. split; [vm_compute; reflexivity|]. split; [reflexivity|].
  eapply (sortWithIndex_size_bound schema keys pstore types background byAge 0%nat);
    [reflexivity | reflexivity | vm_compute; reflexivity | reflexivity].
Defined.

Lemma sortWithIndex_members_witness :
  exists res k',
    sortWithIndex schema keys pstore types background byAge 0%nat = Done (res, k') /\
    err res = None /\
    exists attr0 typ rows,
      index (Attr byAge) 0 = Done attr0 /\
      TypeOf schema attr0 = inl typ /\
      reply res = Some {| r_UidMatrix := rows |} /\
      Forall2 (fun row row' =>
                 forall u, In u row' ->
                   In u row /\ fetched keys pstore types attr0 (Langs byAge) typ u = true)
              (UidMatrix byAge) rows.
Proof.
  eexists _, _. split; [vm_compute; reflexivity|]. split; [reflexivity|].
  eapply (sortWithIndex_members schema keys pstore types background byAge 0%nat);
    [exact Uids_sub | vm_compute; reflexivity | reflexivity].
Defined.

Lemma checkSizes_single_witness :
  checkSizes byAge (UidMatrix byAge) [fresh 0] = Done errContinue.
Proof.
  refine (proj1 (checkSizes_single byAge (UidMatrix byAge) [fresh 0] eq_refl eq_refl) _ _).
  - reflexivity.
  - repeat constructor. cbn. lia.
Defined.

(** [types.Sort] on the database reports no error at all. *)
Lemma types_sentinels_private (v : list (list (Val Z))) :
  SortError types v <> Some errContinue /\ SortError types v <> Some errDone.
Proof. split; discriminate. Qed.

Lemma sortWithIndex_count_zero_witness :
  exists res k',
    sortWithIndex schema keys pstore types background byAgeAll 0%nat = Done (res, k') /\
    err res = None /\
    reply res = Some {| r_UidMatrix := [[]] |}.
Proof.
  eexists _, _. split; [vm_compute; reflexivity|]. split; [reflexivity|].
  eapply (sortWithIndex_count_zero schema keys pstore types types_sentinels_private
            background byAgeAll 0%nat);
    [reflexivity | reflexivity | vm_compute; reflexivity | reflexivity].
Defined.

Lemma processSort_row_count_witness :
  exists rows,
    Some {| r_UidMatrix := [[2; 4; 3]%N] |} = Some {| r_UidMatrix := rows |} /\
    List.length rows = List.length (UidMatrix byAge) /\
    (1 < len (Attr byAge) -> Forall (fun row => len row = Count byAge) rows).
Proof.
  apply (processSort_row_count schema keys pstore types cluster (usual []) byAge).
  vm_compute. reflexivity.
Defined.

Lemma processSort_members_witness :
  exists rows,
    Some {| r_UidMatrix := [[2; 4; 3]%N] |} = Some {| r_UidMatrix := rows |} /\
    Forall2 (fun row row' => forall u, In u row' -> In u row) (UidMatrix byAge) rows.
Proof.
  apply (processSort_members schema keys pstore types cluster (usual []) byAge).
  - exact Uids_sub.
  - vm_compute. reflexivity.
Defined.

Lemma fetchValues_query_witness :
  fetchValues cluster "nick" [1; 2]%N 1 =
    {| idx := 1;
       r := fst (ProcessTaskOverNetwork cluster
                   {| q_Attr := "nick"; q_UidList := [1; 2]%N; q_Reverse := false |});
       o_err := snd (ProcessTaskOverNetwork cluster
                   {| q_Attr := "nick"; q_UidList := [1; 2]%N; q_Reverse := false |}) |}.
Proof.
  exact (proj2 (fetchValues_query cluster "nick" [1; 2]%N 1) eq_refl).
Defined.

Lemma receiveOrders_failures_witness :
  Some (ErrOther "connection refused") <> None.
Proof.
  refine (proj1 (receiveOrders_failures keys types [1; 2]%N [failedOrder] None
                   (repeat [@zeroVal Z; zeroVal] 2)
                   (Some (ErrOther "connection refused"))
                   (repeat [@zeroVal Z; zeroVal] 2) eq_refl) _).
  right. constructor. discriminate.
Defined.

Lemma Sort_agrees_with_SortOverNetwork_witness :
  Sort schema keys pstore types cluster background (usual []) byAge =
    processSort schema keys pstore types cluster (usual []) byAge /\
  SortOverNetwork schema keys pstore types cluster unreachable (usual []) byAge =
    processSort schema keys pstore types cluster (usual []) byAge.
Proof.
  exact (Sort_agrees_with_SortOverNetwork schema keys pstore types cluster unreachable
           background (usual []) byAge "age" eq_refl eq_refl eq_refl eq_refl).
Defined.

Lemma Sort_cancelled_witness :
  Some emptySortResult = Some emptySortResult /\ Some ErrContext = Some ErrContext.
Proof.
  apply (Sort_cancelled schema keys pstore types cluster cancelled (usual []) byAge).
  - reflexivity.
  - left. reflexivity.
Defined.

End DbMore.
